(** * Tonal: pitch encoding, transposition, midi numbers and melodic direction

    A shallow embedding of the [tonal] library (the literate source file and
    [lib/list/direction.js]) and the proofs of its stated properties.

    Conventions of the embedding.
    - A pitch is a JavaScript array of integers: [list Z].  Arithmetic on
      pitch coordinates is exact integer arithmetic ([Z]); [Math.floor (a / b)]
      on integers is [Z.div] and the remainder operator [%] is [Z.rem].
    - [null] results of [pitch] and of array indexing out of range are [None].
    - Values that cross the public interface (text, tuples, bare numbers,
      [null], [undefined]) are the type [value].
    - The parse cache is an explicit store threaded through every function
      that reads text. *)

From stdpp Require Import gmap strings list fin_maps pretty numbers.
From Stdlib Require Import ZArith QArith Qcanon Qreals Reals Lia Lra.
From Stdlib Require Import Ascii.

Local Open Scope Z_scope.

(** ** 1. Pitches *)

(** [arr[i]] for an integer index: [undefined] (here [None]) outside the
    array. *)
Definition js_index {A} (arr : list A) (i : Z) : option A :=
  if bool_decide (0 ≤ i) then arr !! Z.to_nat i else None.

(** *** Pitch encoding *)

Definition FIFTHS : list Z := [0; 2; 4; -1; 1; 3; 5].

Definition encPC (step alt : Z) : option Z :=
  f ← js_index FIFTHS step; Some (f + 7 * alt).

Definition fifthsSpan (f : Z) : Z := (f * 7) `div` 12.

Definition FIFTH_OCTS : list Z := fifthsSpan <$> FIFTHS.

Definition encOct (step alt oct : Z) : option Z :=
  fo ← js_index FIFTH_OCTS step; Some (oct - fo - 4 * alt).

(** [pitch (step, alt, oct, dir)].  [oct] and [dir] are [None] when the
    argument is absent or not a number. *)
Definition pitch (step alt : Z) (oct dir : option Z) : option (list Z) :=
  if bool_decide (step < 0 ∨ step > 6) then None else
  pc ← encPC step alt;
  match oct with
  | None => Some [pc]
  | Some oct =>
      o ← encOct step alt oct;
      match dir with
      | None => Some [pc; o]
      | Some dir =>
          let d := if bool_decide (dir < 0) then -1 else 1 in
          Some [d * pc; d * o; d]
      end
  end.

(** *** Pitch decoding *)

Definition unaltered (f : Z) : Z :=
  let i := (f + 1) `rem` 7 in
  if bool_decide (i < 0) then 7 + i else i.

Definition STEPS : list Z := [3; 0; 4; 1; 5; 2; 6].

Definition decodeStep (f : Z) : option Z := js_index STEPS (unaltered f).

Definition decodeAlt (f : Z) : Z := (f + 1) `div` 7.

Record decoded := Decoded {
  step : Z;
  alt : Z;
  oct : option Z;
  dir : option Z
}.

(** [p[2] || null]: a missing or zero third component reads as [null]. *)
Definition or_null (x : option Z) : option Z :=
  match x with
  | Some d => if bool_decide (d = 0) then None else Some d
  | None => None
  end.

(** [decode p]; [None] when [p] has no first component or the step table is
    read out of range. *)
Definition decode (p : list Z) : option decoded :=
  f ← p !! 0%nat;
  s ← decodeStep f;
  let a := decodeAlt f in
  o ← match p !! 1%nat with
      | Some p1 => fo ← js_index FIFTH_OCTS s; Some (Some (p1 + 4 * a + fo))
      | None => Some None
      end;
  Some (Decoded s a o (or_null (p !! 2%nat))).

(** Encoding again what [decode] returned. *)
Definition reencode (p : list Z) : option (list Z) :=
  d ← decode p; pitch (step d) (alt d) (oct d) (dir d).

(** ** JavaScript values at the public interface *)

(** Numbers: the finite ones are exact rationals (every finite double is
    one); [NaN] and the two infinities are kept apart. *)
Inductive number :=
  | NaN
  | Inf (negative : bool)
  | Fin (x : Qc).

Inductive value :=
  | VUndef
  | VNull
  | VBool (b : bool)
  | VNum (n : number)
  | VStr (s : string)
  | VArr (p : list Z).

Global Instance number_eq_dec : EqDecision number.
Proof. solve_decision. Defined.

Global Instance value_eq_dec : EqDecision value.
Proof. solve_decision. Defined.

Inductive exn :=
  | TypeError
  | RangeError
  | Error (msg : string) (arg : value).

(** The result of a call that may throw. *)
Inductive outcome (A : Type) :=
  | Ok (a : A)
  | Throw (e : exn).
Arguments Ok {A} a.
Arguments Throw {A} e.

Definition num_of_Z (z : Z) : number := Fin (Qc_of_Z z).

Definition isArr (v : value) : bool :=
  match v with VArr _ => true | _ => false end.

(** JavaScript truthiness. *)
Definition truthy (v : value) : bool :=
  match v with
  | VUndef | VNull => false
  | VBool b => b
  | VNum NaN => false
  | VNum (Inf _) => true
  | VNum (Fin x) => negb (bool_decide (x = 0%Qc))
  | VStr s => negb (bool_decide (s = ""))
  | VArr _ => true
  end.

(** [null] or an array, as returned by [pitch]. *)
Definition of_pitch (p : option (list Z)) : value :=
  match p with Some l => VArr l | None => VNull end.

(** *** Shape tests *)

Definition isPitch (p : value) : bool :=
  match p with VArr l => bool_decide (is_Some (l !! 0%nat)) | _ => false end.


Definition hasOct (p : value) : bool :=
  isPitch p &&
  match p with VArr l => bool_decide (is_Some (l !! 1%nat)) | _ => false end.

Definition isPitchNote (p : value) : bool :=
  hasOct p &&
  match p with VArr l => bool_decide (length l = 2%nat) | _ => false end.

Definition isInterval (i : value) : bool :=
  hasOct i &&
  match i with VArr l => bool_decide (is_Some (l !! 2%nat)) | _ => false end.

(** ** The external grammars

    [note-parser] and [interval-notation] are separate packages; the library
    only uses the operations below.  [string_to_number] is the numeric
    coercion of a string by the language ([+str]). *)

Record note_props := NoteProps {
  n_step : Z;
  n_alt : Z;
  n_oct : option Z
}.

Record ivl_props := IvlProps {
  i_simple : Z;
  i_alt : Z;
  i_oct : option Z;
  i_dir : option Z
}.

Class Grammars := {
  note_parse : string → option note_props;
  ivl_parse : string → option ivl_props;
  ivl_type : Z → string;
  ivl_altToQ : Z → Z → string;
  string_to_number : string → number
}.

(** ** Pitch parsers and the shared cache *)

Section parsers.
Context `{!Grammars}.

(** The single [cache] object shared by both cached parsers; a text that
    is not a key reads as [undefined]. *)
Definition cache_lookup (cache : gmap string value) (str : string) : value :=
  default VUndef (cache !! str).

(** [cached parser]: [cache[str] || (cache[str] = parser (str))]. *)
Definition cached (parser : string → value) (str : value)
    (cache : gmap string value) : value * gmap string value :=
  match str with
  | VStr s =>
      if truthy (cache_lookup cache s) then (cache_lookup cache s, cache)
      else let r := parser s in (r, <[s:=r]> cache)
  | _ => (VNull, cache)
  end.

(** The parser wrapped by [parseNote]. *)
Definition note_of (str : string) : value :=
  match note_parse str with
  | Some n => of_pitch (pitch (n_step n) (n_alt n) (n_oct n) None)
  | None => VNull
  end.

Definition parseNote : value → gmap string value → value * gmap string value :=
  cached note_of.

(** The parser wrapped by [parseIvl]. *)
Definition ivl_of (str : string) : value :=
  match ivl_parse str with
  | Some i => of_pitch (pitch (i_simple i - 1) (i_alt i) (i_oct i) (i_dir i))
  | None => VNull
  end.

Definition parseIvl : value → gmap string value → value * gmap string value :=
  cached ivl_of.

(** [parseNote (str) || parseIvl (str)] *)
Definition parsePitch (str : value) (cache : gmap string value)
    : value * gmap string value :=
  let '(n, cache1) := parseNote str cache in
  if truthy n then (n, cache1) else parseIvl str cache1.

(** What [parsePitch] computes for a text that the cache does not hold. *)
Definition fresh_parse (str : string) : value :=
  if truthy (note_of str) then note_of str else ivl_of str.

(** *** Pitch to string *)

Definition stepLetter (s : Z) : string :=
  match js_index (String.list_ascii_of_string "CDEFGAB") s with
  | Some ch => String ch ""
  | None => "undefined"
  end.

(** [Array (Math.abs (num) + 1).join (s)] *)
Definition fillStr (s : string) (num : Z) : string :=
  String.concat s (replicate (Z.to_nat (Z.abs num + 1)) "").

Definition altAcc (n : Z) : string :=
  fillStr (if bool_decide (n < 0) then "b" else "#") n.

Definition strNum (n : option Z) : string :=
  match n with Some n => pretty n | None => "" end.

(** [strNote]: [null] for an interval; an array without a first component
    makes [fillStr] ask for an array of length [NaN]. *)
Definition strNote (pitch : list Z) : outcome value :=
  if isInterval (VArr pitch) then Ok VNull else
  match decode pitch with
  | Some p => Ok (VStr (stepLetter (step p) +:+ altAcc (alt p) +:+ strNum (oct p)))
  | None => Throw RangeError
  end.

Definition isAsc (p : decoded) : bool := bool_decide (dir p = Some 1).
Definition isPerf (p : decoded) : bool :=
  bool_decide (ivl_type (step p + 1) = "P").
Definition calcNum (p : decoded) : Z :=
  let o := default 0 (oct p) in
  if isAsc p then step p + 1 + 7 * o else (8 - step p) - 7 * (o + 1).
Definition calcAlt (p : decoded) : Z :=
  if isAsc p then alt p else if isPerf p then - alt p else - (alt p + 1).

Definition strIvl (pitch : list Z) : outcome value :=
  if isInterval (VArr pitch) then
    match decode pitch with
    | Some p =>
        let num := calcNum p in
        Ok (VStr (pretty (default 0 (dir p) * num)
                  +:+ ivl_altToQ num (calcAlt p)))
    | None => Throw RangeError
    end
  else Ok VNull.

Definition strPitch (p : list Z) : outcome value :=
  match or_null (p !! 2%nat) with
  | Some _ => strIvl p
  | None => strNote p
  end.

(** *** Decorated entry points: [notation (parse, str)] *)

Definition expectNote (v : value) (cache : gmap string value)
    : value * gmap string value :=
  if negb (isPitch v) then parseNote v cache else (v, cache).

Definition expectIvl (v : value) (cache : gmap string value)
    : value * gmap string value :=
  if negb (isPitch v) then parseIvl v cache else (v, cache).

Definition expectPitch (v : value) (cache : gmap string value)
    : value * gmap string value :=
  if negb (isPitch v) then parsePitch v cache else (v, cache).

Definition toPitchStr (v : value) : outcome value :=
  match v with
  | VArr p => if negb (isPitch v) then Ok v else strPitch p
  | _ => Ok v
  end.

(** ** Midi pitch numbers *)

(** [p[0] * 7 + 12 * p[1]] *)
Definition height (p : list Z) : option Z :=
  p0 ← p !! 0%nat; p1 ← p !! 1%nat; Some (p0 * 7 + 12 * p1).

(** Numeric coercion of a non-array value, as done by [>], [<] and unary
    [+]. *)
Definition to_number (v : value) : number :=
  match v with
  | VUndef => NaN
  | VNull => Fin 0%Qc
  | VBool b => Fin (if b then 1%Qc else 0%Qc)
  | VNum n => n
  | VStr s => string_to_number s
  | VArr _ => NaN
  end.

(** [a < b] on numbers; every comparison with [NaN] is false. *)
Definition num_lt (a b : number) : bool :=
  match a, b with
  | NaN, _ | _, NaN => false
  | Inf true, Inf true => false
  | Inf true, _ => true
  | _, Inf true => false
  | Inf false, _ => false
  | _, Inf false => true
  | Fin x, Fin y => bool_decide (x < y)%Qc
  end.

Definition isMidi (m : value) : bool :=
  negb (isArr m)
  && num_lt (num_of_Z 0) (to_number m)
  && num_lt (to_number m) (num_of_Z 129).

(** [midi (val)]: a number, or [null] as [VNull]. *)
Definition midi (val : value) (cache : gmap string value)
    : value * gmap string value :=
  let '(p, cache1) := expectNote val cache in
  (if hasOct p then
     match p with
     | VArr l => match height l with
                 | Some h => VNum (num_of_Z (h + 12))
                 | None => VNum NaN
                 end
     | _ => VNum NaN
     end
   else if isMidi val then VNum (to_number val)
   else VNull, cache1).

Definition CHROMATIC : list (option Z) :=
  [Some 0; None; Some 1; None; Some 2; Some 3; None; Some 4; None; Some 5;
   None; Some 6].

(** [CHROMATIC[m % 12]]: [None] is [undefined], [Some None] is [null]. *)
Definition midiStep (m : Z) : option (option Z) :=
  js_index CHROMATIC (m `rem` 12).

(** [strNote (pitch (s, alt, o))] where [s] was read from [CHROMATIC].  A
    step that is not a number encodes to [NaN] coordinates, and rendering
    them throws; a [null] pitch cannot be indexed. *)
Definition strNote_pitch (s : option (option Z)) (alt o : Z) : outcome value :=
  match s with
  | Some (Some s) =>
      match pitch s alt (Some o) None with
      | Some n => strNote n
      | None => Throw TypeError
      end
  | _ => Throw RangeError
  end.

Definition chromatic (useSharps : bool) (midi : Z) : outcome value :=
  let c := midiStep midi in
  let o := midi `div` 12 - 1 in
  if negb (bool_decide (c = Some None)) then strNote_pitch c 0 o
  else if useSharps then strNote_pitch (midiStep (midi - 1)) 1 o
  else strNote_pitch (midiStep (midi + 1)) (-1) o.

Definition fromMidi : Z → outcome value := chromatic false.

(** ** Frequency conversions *)

Definition number_to_R (n : number) : R :=
  match n with Fin x => Q2R (this x) | _ => 0%R end.

(** [m ? Math.pow (2, (m - 69) / 12) * ref : null] over the reals. *)
Definition wellTempered (ref : R) (pitch : value) (cache : gmap string value)
    : option R * gmap string value :=
  let '(m, cache1) := midi pitch cache in
  (if truthy m then
     match m with
     | VNum n => Some (Rpower 2 ((number_to_R n - 69) / 12) * ref)%R
     | _ => None
     end
   else None, cache1).

Definition toFreq : value → gmap string value → option R * gmap string value :=
  wellTempered 440%R.

(** ** 2. Pitch distances *)

(** [trBy (i, p)] for arrays. [None]: a coordinate that the code adds is
    missing from the array (the sum is [NaN]). *)
Definition trBy (i p : list Z) : option (list Z) :=
  i0 ← i !! 0%nat; p0 ← p !! 0%nat;
  let f := i0 + p0 in
  if bool_decide (length p = 1%nat) then Some [f] else
  i1 ← i !! 1%nat; p1 ← p !! 1%nat;
  let o := i1 + p1 in
  if bool_decide (length p = 2%nat) then Some [f; o] else
  let d := if bool_decide (7 * f + 12 * o < 0) then -1 else 1 in
  Some [f; o; d].

(** [trBy] on values: indexing [null] throws.  [transpose] only passes
    arrays that have the coordinates [trBy] reads; the [RangeError] stands for
    the rendering of [NaN] coordinates otherwise. *)
Definition trBy_value (i p : value) : outcome value :=
  match i, p with
  | VArr i, VArr p =>
      match trBy i p with
      | Some r => Ok (VArr r)
      | None => Throw RangeError
      end
  | _, _ => Throw TypeError
  end.

(** The choice of the interval role in [transpose]. *)
Definition by_interval (pa pb : value) : outcome value :=
  if isInterval pa then trBy_value pa pb
  else if isInterval pb then trBy_value pb pa
  else Ok VNull.

Definition transpose (a b : value) (cache : gmap string value)
    : outcome value * gmap string value :=
  let '(pa, cache1) := expectPitch a cache in
  let '(pb, cache2) := expectPitch b cache1 in
  let r := by_interval pa pb in
  (match r with
   | Ok r => toPitchStr r
   | Throw e => Throw e
   end, cache2).

(** *** Decorated pitch properties *)

Definition toNoteStr (v : value) : outcome value :=
  match v with
  | VArr p => if negb (isPitch v) then Ok v else strNote p
  | _ => Ok v
  end.

Definition toIvlStr (v : value) : outcome value :=
  match v with
  | VArr p => if negb (isPitch v) then Ok v else strIvl p
  | _ => Ok v
  end.

(** [buildFnDec (expect, to)]: [(fn) => (v) => to (fn (expect (v)))] *)
Definition buildFnDec
    (expect : value → gmap string value → value * gmap string value)
    (to : value → outcome value) (fn : value → outcome value)
    (v : value) (cache : gmap string value)
    : outcome value * gmap string value :=
  let '(p, cache1) := expect v cache in
  (match fn p with
   | Ok r => to r
   | Throw e => Throw e
   end, cache1).

Definition noteFn := buildFnDec expectNote toNoteStr.
Definition ivlFn := buildFnDec expectIvl toIvlStr.
Definition pitchFn := buildFnDec expectPitch toPitchStr.

(** The body of a decorated function reads components of what [expect]
    returned, an array or [null]; [null] cannot be indexed. *)
Definition on_array (p : value) (body : list Z → outcome value) : outcome value :=
  match p with
  | VArr l => body l
  | _ => Throw TypeError
  end.

(** [noteFn ((n) => stepLetter (decode (n).step))] *)
Definition letter : value → gmap string value → outcome value * gmap string value :=
  noteFn (λ n, on_array n (λ l,
    Ok (match decode l with
        | Some d => VStr (stepLetter (step d))
        | None => VUndef
        end))).

(** [noteFn ((n) => altAcc (decode (n).alt))] *)
Definition accidentals : value → gmap string value → outcome value * gmap string value :=
  noteFn (λ n, on_array n (λ l,
    match decode l with
    | Some d => Ok (VStr (altAcc (alt d)))
    | None => Throw RangeError
    end)).

(** [pitchFn ((p) => decode (p).oct)] *)
Definition octave : value → gmap string value → outcome value * gmap string value :=
  pitchFn (λ p, on_array p (λ l,
    Ok (match decode l with
        | Some d => match oct d with Some o => VNum (num_of_Z o) | None => VNull end
        | None => VNull
        end))).

(** [ivlFn ((i) => decode (i).step + 1)] *)
Definition simpleNum : value → gmap string value → outcome value * gmap string value :=
  ivlFn (λ i, on_array i (λ l,
    Ok (match decode l with
        | Some d => VNum (num_of_Z (step d + 1))
        | None => VNum NaN
        end))).

(** [ivlFn ((i) => calcNum (decode (i)))] *)
Definition number_of : value → gmap string value → outcome value * gmap string value :=
  ivlFn (λ i, on_array i (λ l,
    Ok (match decode l with
        | Some d => VNum (num_of_Z (calcNum d))
        | None => VNum NaN
        end))).

(** [ivlFn (height)] *)
Definition semitones : value → gmap string value → outcome value * gmap string value :=
  ivlFn (λ i, on_array i (λ l,
    Ok (match height l with
        | Some h => VNum (num_of_Z h)
        | None => VNum NaN
        end))).

(** *** Sorting heights *)

(** [objHeight (p)] for [null] or an array, the values that [listFn] hands
    to a comparator. *)
Definition objHeight (p : value) : number :=
  if negb (truthy p) then Inf true else
  match p with
  | VArr l =>
      match l !! 0%nat with
      | Some p0 =>
          let f := p0 * 7 in
          let o := match l !! 1%nat with
                   | Some p1 => p1
                   | None => - (f `div` 12) - 10
                   end in
          num_of_Z (f + o * 12)
      | None => NaN
      end
  | _ => NaN
  end.

(** [a - b] on numbers. *)
Definition num_sub (a b : number) : number :=
  match a, b with
  | NaN, _ | _, NaN => NaN
  | Inf s, Inf t => if bool_decide (s = t) then NaN else Inf s
  | Inf s, Fin _ => Inf s
  | Fin _, Inf t => Inf (negb t)
  | Fin x, Fin y => Fin (x - y)%Qc
  end.

(** [- a] on numbers. *)
Definition num_neg (a : number) : number :=
  match a with
  | NaN => NaN
  | Inf s => Inf (negb s)
  | Fin x => Fin (- x)%Qc
  end.

Definition ascComp (a b : value) : number := num_sub (objHeight a) (objHeight b).
Definition descComp (a b : value) : number := num_neg (ascComp a b).

End parsers.

(** ** 3. Lists: forcing a melodic direction ([lib/list/direction.js]) *)

Module Direction.

(** The object returned by [note (...)]: the fields that [direction] reads. *)
Record note_obj (item : Type) := NoteObj {
  name : item;
  midi : Z;
  oct : Z
}.
Arguments NoteObj {item} _ _ _.
Arguments name {item} _.
Arguments midi {item} _.
Arguments oct {item} _.

(** Modelled from the spec: [../note/note] is not part of the sources at
    hand.  [note x] reads a list entry as a note; [note_oct n o] is the call
    [note (n, null, o)], the same note moved to octave [o]. *)
Class NoteLibrary (item : Type) := {
  note : item → note_obj item;
  note_oct : note_obj item → Z → note_obj item
}.

Definition GT (a b : Z) : bool := bool_decide (a > b).
Definition LT (a b : Z) : bool := bool_decide (a < b).

Section direction.
Context {item : Type} `{!NoteLibrary item}.

(** The body of the [for] loop; [last] is [result[i - 1]], the entry
    pushed by the previous round. *)
Fixpoint direction_loop (comp : Z → Z → bool) (off : Z) (last : item)
    (rest : list item) : list item :=
  match rest with
  | [] => []
  | x :: rest =>
      let prev := note last in
      let curr := note x in
      let kept :=
        if comp (midi prev) (midi curr) then
          let o := (midi prev - midi curr) `div` 12 + off in
          name (note_oct curr (oct curr + o))
        else x in
      kept :: direction_loop comp off kept rest
  end.

(** [direction (items, dir)]; [items] is an array already, which [toList]
    returns as it is. *)
Definition direction (items : list item) (dir : value)
    : outcome (list item) :=
  let dir := if truthy dir then dir else VNum (num_of_Z 1) in
  if bool_decide (dir ≠ VNum (num_of_Z 1))
     && bool_decide (dir ≠ VNum (num_of_Z (-1)))
  then Throw (Error "Direction not valid: " dir)
  else
    let comp := if bool_decide (dir = VNum (num_of_Z 1)) then GT else LT in
    let off := if bool_decide (dir = VNum (num_of_Z 1)) then 1 else 0 in
    Ok (match items with
        | [] => []
        | x :: rest => x :: direction_loop comp off x rest
        end).

(** The semitone height of a list entry, as the loop reads it. *)
Definition height_of (x : item) : Z := midi (note x).

(** Ascending: an entry [x] that is not below the previous kept entry
    stays; otherwise the kept entry [y] is [x] moved by whole octaves to
    the first height above the previous one. *)
Definition kept_up (prev x y : item) : Prop :=
  (height_of prev ≤ height_of x ∧ y = x)
  ∨ (height_of x < height_of prev
     ∧ (12 | height_of y - height_of x)
     ∧ height_of prev < height_of y ≤ height_of prev + 12).

(** Descending: an entry that is not above the previous kept entry
    stays; otherwise it is moved by whole octaves and, unless it lies a
    whole number of octaves above the previous kept entry, to the first
    height below the previous one. *)
Definition kept_down (prev x y : item) : Prop :=
  (height_of x ≤ height_of prev ∧ y = x)
  ∨ (height_of prev < height_of x
     ∧ (12 | height_of x - height_of y)
     ∧ (¬ (12 | height_of x - height_of prev) →
        height_of prev - 12 < height_of y < height_of prev)).

(** [outs] follows [ins] entry by entry, each kept entry related to the
    one kept before it. *)
Fixpoint contour (R : item → item → item → Prop) (last : item)
    (ins outs : list item) : Prop :=
  match ins, outs with
  | [], [] => True
  | x :: ins, y :: outs => R last x y ∧ contour R y ins outs
  | _, _ => False
  end.

(** The heights of [last] and of the entries after it, each compared with
    the one before. *)
Fixpoint heights_related (R : Z → Z → Prop) (last : item) (rest : list item)
    : Prop :=
  match rest with
  | [] => True
  | x :: rest => R (height_of last) (height_of x) ∧ heights_related R x rest
  end.

End direction.

(** A small note library: an entry is a pair of a semitone within the
    octave and an octave number, and its midi number is
    [semitone + 12 * (octave + 1)]. *)
Definition tone_note (x : Z * Z) : note_obj (Z * Z) :=
  NoteObj x (x.1 + 12 * (x.2 + 1)) x.2.

Definition tones : NoteLibrary (Z * Z) := {|
  note := tone_note;
  note_oct := λ n o, tone_note ((name n).1, o)
|}.

End Direction.

(** ** A small instance of the external grammars

    Enough of the two notations to run the examples of the documentation. *)

Fixpoint assoc {A} (table : list (string * A)) (s : string) : option A :=
  match table with
  | [] => None
  | (k, v) :: table => if String.eqb k s then Some v else assoc table s
  end.

Definition sample_grammars : Grammars := {|
  note_parse := assoc
    [("C4", NoteProps 0 0 (Some 4)); ("A4", NoteProps 5 0 (Some 4));
     ("E4", NoteProps 2 0 (Some 4)); ("Db4", NoteProps 1 (-1) (Some 4));
     ("C", NoteProps 0 0 None)];
  ivl_parse := assoc
    [("M3", IvlProps 3 0 (Some 0) (Some 1));
     ("-2M", IvlProps 2 0 (Some 0) (Some (-1)));
     ("A4", IvlProps 4 1 (Some 0) (Some 1))];
  ivl_type := λ n,
    if bool_decide (n `mod` 7 ∈ [1; 4; 5]) then "P" else "M";
  ivl_altToQ := λ n a,
    if bool_decide (a = 0) then
      if bool_decide (n `mod` 7 ∈ [1; 4; 5]) then "P" else "M"
    else if bool_decide (0 < a) then fillStr "A" a
    else if bool_decide (n `mod` 7 ∈ [1; 4; 5]) then fillStr "d" a
    else if bool_decide (a = -1) then "m" else fillStr "d" (a + 1);
  string_to_number := λ s,
    default NaN (assoc [("60", num_of_Z 60); ("", num_of_Z 0)] s)
|}.


(** ** The chromatic scale as the documentation words it *)

(** The natural semitones and their letters. *)
Definition natural_letter (chroma : Z) : option string :=
  match chroma with
  | 0 => Some "C" | 2 => Some "D" | 4 => Some "E" | 5 => Some "F"
  | 7 => Some "G" | 9 => Some "A" | 11 => Some "B"
  | _ => None
  end.

(** The letter of a natural semitone; otherwise the sharp of the natural one
    semitone below, or the flat of the natural one semitone above. *)
Definition chromatic_name (useSharps : bool) (chroma : Z) : string :=
  match natural_letter chroma with
  | Some l => l
  | None =>
      if useSharps then default "" (natural_letter (chroma - 1)) +:+ "#"
      else default "" (natural_letter (chroma + 1)) +:+ "b"
  end.

(** ** Statement helpers *)

(** The semitones of the seven letters above C. *)
Definition step_semitones : list Z := [0; 2; 4; 5; 7; 9; 11].

(** The steps whose interval number is perfect: unison, fourth, fifth. *)
Definition perfect_step (s : Z) : bool :=
  bool_decide (s = 0 ∨ s = 3 ∨ s = 4).

(** The step of the inverted interval: a second for a seventh, a third for
    a sixth, and so on; the unison stays. *)
Definition complement_step (s : Z) : Z :=
  if bool_decide (s = 0) then 0 else 7 - s.


(** * Properties *)

(** ** The encoding *)

Lemma unaltered_mod (f : Z) : unaltered f = (f + 1) `mod` 7.
Proof.
  unfold unaltered. case_bool_decide;
    Z.to_euclidean_division_equations; lia.
Qed.

Lemma unaltered_range (f : Z) : 0 ≤ unaltered f ≤ 6.
Proof. rewrite unaltered_mod. pose proof (Z.mod_pos_bound (f + 1) 7). lia. Qed.

Lemma step_cases (s : Z) :
  0 ≤ s ≤ 6 → s = 0 ∨ s = 1 ∨ s = 2 ∨ s = 3 ∨ s = 4 ∨ s = 5 ∨ s = 6.
Proof. lia. Qed.

Ltac step_split H :=
  destruct (step_cases _ H) as [->|[->|[->|[->|[->|[->| ->]]]]]].

(** The step table is read inside its bounds for every fifths coordinate. *)
Lemma decodeStep_total (f : Z) :
  ∃ s, decodeStep f = Some s ∧ 0 ≤ s ≤ 6.
Proof.
  unfold decodeStep. pose proof (unaltered_range f) as H.
  step_split H; eexists; (split; [vm_compute; reflexivity | lia]).
Qed.

Lemma FIFTH_OCTS_total (s : Z) :
  0 ≤ s ≤ 6 → ∃ fo, js_index FIFTH_OCTS s = Some fo.
Proof. intros H. step_split H; vm_compute; eauto. Qed.


(** What [pitch] computes, with the two tables unfolded. *)
Lemma decode_fifths (s a f : Z) :
  0 ≤ s ≤ 6 → js_index FIFTHS s = Some f →
  decodeStep (f + 7 * a) = Some s ∧ decodeAlt (f + 7 * a) = a.
Proof.
  intros H Hf. unfold decodeStep, decodeAlt. rewrite unaltered_mod.
  replace (f + 7 * a + 1) with (f + 1 + a * 7) by lia.
  rewrite Z.mod_add, Z.div_add by lia.
  step_split H; vm_compute in Hf; simplify_eq; split; reflexivity.
Qed.

Lemma decode_pitch_class (s a : Z) :
  0 ≤ s ≤ 6 →
  ∃ p, pitch s a None None = Some p ∧ decode p = Some (Decoded s a None None).
Proof.
  intros H. unfold pitch, encPC. rewrite bool_decide_eq_false_2 by lia.
  destruct (js_index FIFTHS s) as [f|] eqn:Hf;
    [|step_split H; discriminate].
  simpl. eexists; split; [reflexivity|].
  destruct (decode_fifths s a f H Hf) as [Hs Ha].
  unfold decode. simpl. rewrite Hs. simpl. by rewrite Ha.
Qed.

Lemma decode_pitch_ascending (s a o : Z) (d : option Z) :
  0 ≤ s ≤ 6 → d = None ∨ d = Some 1 →
  ∃ p, pitch s a (Some o) d = Some p
       ∧ decode p = Some (Decoded s a (Some o) d).
Proof.
  intros H Hd. unfold pitch, encPC, encOct.
  rewrite bool_decide_eq_false_2 by lia.
  destruct (js_index FIFTHS s) as [f|] eqn:Hf;
    [|step_split H; discriminate].
  destruct (FIFTH_OCTS_total s H) as [fo Hfo]. rewrite Hfo. simpl.
  destruct (decode_fifths s a f H Hf) as [Hs Ha].
  destruct Hd as [-> | ->]; simpl.
  - eexists; split; [reflexivity|].
    unfold decode. simpl. rewrite Hs. simpl. rewrite Hfo. simpl.
    rewrite Ha. do 3 f_equal. lia.
  - eexists; split; [reflexivity|].
    unfold decode. simpl.
    replace (1 * (f + 7 * a)) with (f + 7 * a) by lia.
    rewrite Hs. simpl. rewrite Hfo. simpl.
    rewrite Ha. do 3 f_equal. lia.
Qed.

Lemma decode_total (f : Z) (rest : list Z) :
  ∃ d, decode (f :: rest) = Some d ∧ 0 ≤ step d ≤ 6.
Proof.
  destruct (decodeStep_total f) as (s & Hs & Hr).
  destruct (FIFTH_OCTS_total s Hr) as [fo Hfo].
  unfold decode. simpl. rewrite Hs. simpl.
  destruct rest as [|p1 rest]; simpl.
  - eexists; split; [reflexivity|]. simpl. lia.
  - rewrite Hfo. simpl. eexists; split; [reflexivity|]. simpl. lia.
Qed.

(** [STEPS] inverts [FIFTHS] modulo 7. *)
Lemma fifths_of_decodeStep (f : Z) :
  ∃ s, decodeStep f = Some s ∧ 0 ≤ s ≤ 6
       ∧ js_index FIFTHS s = Some (f - 7 * decodeAlt f).
Proof.
  unfold decodeStep, decodeAlt. rewrite unaltered_mod.
  pose proof (Z.mod_pos_bound (f + 1) 7) as Hr.
  pose proof (Z.div_mod (f + 1) 7) as Hq.
  replace (f - 7 * ((f + 1) `div` 7)) with ((f + 1) `mod` 7 - 1) by lia.
  assert (0 ≤ (f + 1) `mod` 7 ≤ 6) as H by lia.
  clear Hr Hq. revert H. generalize ((f + 1) `mod` 7). intros r H.
  step_split H; eexists; (split; [vm_compute; reflexivity|]);
    (split; [lia | reflexivity]).
Qed.

Lemma reencode_pitch_class (f : Z) : reencode [f] = Some [f].
Proof.
  destruct (fifths_of_decodeStep f) as (s & Hs & Hr & Hf).
  unfold reencode, decode. simpl. rewrite Hs. simpl.
  unfold pitch, encPC. rewrite bool_decide_eq_false_2 by lia.
  rewrite Hf. simpl. do 2 f_equal. lia.
Qed.

Lemma reencode_note (f o : Z) : reencode [f; o] = Some [f; o].
Proof.
  destruct (fifths_of_decodeStep f) as (s & Hs & Hr & Hf).
  destruct (FIFTH_OCTS_total s Hr) as [fo Hfo].
  unfold reencode, decode. simpl. rewrite Hs. simpl. rewrite Hfo. simpl.
  unfold pitch, encPC, encOct. rewrite bool_decide_eq_false_2 by lia.
  rewrite Hf. simpl. rewrite Hfo. simpl. f_equal.
  f_equal; [lia|]. f_equal. lia.
Qed.

Lemma reencode_ascending (f o : Z) : reencode [f; o; 1] = Some [f; o; 1].
Proof.
  destruct (fifths_of_decodeStep f) as (s & Hs & Hr & Hf).
  destruct (FIFTH_OCTS_total s Hr) as [fo Hfo].
  unfold reencode, decode. simpl. rewrite Hs. simpl. rewrite Hfo. simpl.
  unfold pitch, encPC, encOct. rewrite bool_decide_eq_false_2 by lia.
  rewrite Hf. simpl. rewrite Hfo. simpl. f_equal.
  f_equal; [lia|]. f_equal. lia.
Qed.

(** C9: for every integer fifths coordinate the decoded step lies in
    [0..6], so every pitch with a first component decodes to a step in
    range. *)
Theorem decoded_step_in_range :
  (∀ f, ∃ s, decodeStep f = Some s ∧ 0 ≤ s ≤ 6)
  ∧ (∀ f rest, ∃ d, decode (f :: rest) = Some d ∧ 0 ≤ step d ≤ 6).
Proof. split; [apply decodeStep_total | apply decode_total]. Qed.

(** ** The chromatic scale *)

Lemma strNote_note (s a o : Z) :
  0 ≤ s ≤ 6 →
  strNote_pitch (Some (Some s)) a o
  = Ok (VStr (stepLetter s +:+ altAcc a +:+ pretty o)).
Proof.
  intros H. unfold strNote_pitch.
  destruct (decode_pitch_ascending s a o None H) as (p & Hp & Hd); [by left|].
  rewrite Hp. unfold strNote. rewrite Hd. simpl.
  assert (length p = 2%nat) as Hlen.
  { unfold pitch in Hp. rewrite bool_decide_eq_false_2 in Hp by lia.
    destruct (encPC s a); [|discriminate]. simpl in Hp.
    destruct (encOct s a o); [|discriminate]. by simplify_eq/=. }
  destruct p as [|p0 [|p1 [|p2 p]]]; try discriminate. reflexivity.
Qed.

Lemma chromatic_natural (useSharps : bool) (m c : Z) :
  midiStep m = Some (Some c) → 0 ≤ c ≤ 6 →
  chromatic useSharps m
  = Ok (VStr (stepLetter c +:+ altAcc 0 +:+ pretty (m `div` 12 - 1))).
Proof.
  intros Hc H. unfold chromatic. rewrite Hc.
  rewrite bool_decide_eq_false_2 by discriminate. simpl.
  by apply strNote_note.
Qed.

Lemma chromatic_sharp (m c : Z) :
  midiStep m = Some None → midiStep (m - 1) = Some (Some c) → 0 ≤ c ≤ 6 →
  chromatic true m
  = Ok (VStr (stepLetter c +:+ altAcc 1 +:+ pretty (m `div` 12 - 1))).
Proof.
  intros Hm Hc H. unfold chromatic. rewrite Hm, Hc.
  rewrite bool_decide_eq_true_2 by done. simpl.
  by apply strNote_note.
Qed.

Lemma chromatic_flat (m c : Z) :
  midiStep m = Some None → midiStep (m + 1) = Some (Some c) → 0 ≤ c ≤ 6 →
  chromatic false m
  = Ok (VStr (stepLetter c +:+ altAcc (-1) +:+ pretty (m `div` 12 - 1))).
Proof.
  intros Hm Hc H. unfold chromatic. rewrite Hm, Hc.
  rewrite bool_decide_eq_true_2 by done. simpl.
  by apply strNote_note.
Qed.

Lemma midiStep_chroma (m r : Z) :
  0 ≤ m → m `mod` 12 = r → midiStep m = js_index CHROMATIC r.
Proof.
  intros Hm <-. unfold midiStep. f_equal.
  Z.to_euclidean_division_equations; lia.
Qed.

(** Evaluate the closed right-hand side of a table lookup. *)
Ltac eval_rhs :=
  match goal with
  | H : _ = js_index CHROMATIC ?r |- _ =>
      let v := eval vm_compute in (js_index CHROMATIC r) in
      change (js_index CHROMATIC r) with v in H
  end.

(** C8: for a midi number [m >= 0] the name ends with the octave
    [floor (m / 12) - 1]; it starts with the letter of the chroma [m mod 12]
    when that is a natural semitone, and otherwise with the sharp of the
    natural below ([useSharps]) or the flat of the natural above. *)
Theorem chromatic_scale (useSharps : bool) (m : Z) :
  0 ≤ m →
  chromatic useSharps m
  = Ok (VStr (chromatic_name useSharps (m `mod` 12)
              +:+ pretty (m `div` 12 - 1))).
Proof.
  intros Hm.
  pose proof (Z.mod_pos_bound m 12 ltac:(lia)) as Hr.
  pose proof (midiStep_chroma m _ Hm eq_refl) as Hc.
  assert (midiStep (m - 1) = js_index CHROMATIC (m `mod` 12 - 1)
          ∨ m `mod` 12 = 0) as Hdown.
  { destruct (decide (m `mod` 12 = 0)); [by right|left].
    apply midiStep_chroma; [|]; Z.to_euclidean_division_equations; lia. }
  assert (midiStep (m + 1) = js_index CHROMATIC (m `mod` 12 + 1)
          ∨ m `mod` 12 = 11) as Hup.
  { destruct (decide (m `mod` 12 = 11)); [by right|left].
    apply midiStep_chroma; [|]; Z.to_euclidean_division_equations; lia. }
  revert Hc Hdown Hup.
  assert (m `mod` 12 ∈ [0; 1; 2; 3; 4; 5; 6; 7; 8; 9; 10; 11]) as Hin.
  { repeat rewrite elem_of_cons. lia. }
  clear Hr. revert Hin. generalize (m `mod` 12). intros r Hin Hc Hdown Hup.
  repeat (apply elem_of_cons in Hin as [-> | Hin]);
    [..|by apply elem_of_nil in Hin];
    destruct Hdown as [Hdown|?]; try lia;
    destruct Hup as [Hup|?]; try lia;
    repeat eval_rhs;
    first
      [ erewrite chromatic_natural by (first [exact Hc | lia]); reflexivity
      | destruct useSharps;
        [ erewrite chromatic_sharp by (first [exact Hc | exact Hdown | lia])
        | erewrite chromatic_flat by (first [exact Hc | exact Hup | lia]) ];
        reflexivity ].
Qed.

Lemma chromatic_scale_witness :
  0 ≤ 61 ∧ chromatic false 61 = Ok (VStr "Db4")
  ∧ chromatic true 61 = Ok (VStr "C#4").
Proof.
  split; [lia|]. split.
  - rewrite (chromatic_scale false 61) by lia. reflexivity.
  - rewrite (chromatic_scale true 61) by lia. reflexivity.
Defined.

(** ** The cache and the parsers *)

Section parser_facts.
Context `{!Grammars}.

Lemma cache_lookup_insert (cache : gmap string value) (s t : string) (v : value) :
  cache_lookup (<[s:=v]> cache) t
  = if decide (s = t) then v else cache_lookup cache t.
Proof.
  unfold cache_lookup. rewrite lookup_insert.
  by destruct (decide (s = t)).
Qed.

(** On a text, [parsePitch] answers from the cache when the entry is
    truthy and otherwise stores the fresh parse. *)
Lemma parsePitch_str (s : string) (cache : gmap string value) :
  parsePitch (VStr s) cache
  = if truthy (cache_lookup cache s) then (cache_lookup cache s, cache)
    else (fresh_parse s, <[s:=fresh_parse s]> cache).
Proof.
  unfold parsePitch, parseNote, parseIvl, cached, fresh_parse.
  destruct (truthy (cache_lookup cache s)) eqn:Hhit.
  - by rewrite Hhit.
  - destruct (truthy (note_of s)) eqn:Hnote; [done|].
    rewrite cache_lookup_insert, decide_True by done.
    rewrite Hnote. by rewrite insert_insert_eq.
Qed.

Lemma parsePitch_other (v : value) (cache : gmap string value) :
  (∀ s, v ≠ VStr s) → parsePitch v cache = (VNull, cache).
Proof. intros Hv. destruct v; try done. by destruct (Hv s). Qed.

(** A call of [expectPitch] does not change what a later call returns. *)
Lemma expectPitch_stable (v w : value) (cache : gmap string value) :
  (expectPitch w (expectPitch v cache).2).1 = (expectPitch w cache).1.
Proof.
  unfold expectPitch at 2.
  destruct (negb (isPitch v)); [|done].
  destruct v as [| | | |s|]; try done.
  rewrite parsePitch_str.
  destruct (truthy (cache_lookup cache s)) eqn:Hhit; [done|]. simpl.
  unfold expectPitch. destruct (negb (isPitch w)); [|done].
  destruct w as [| | | |t|]; try done.
  rewrite !parsePitch_str, cache_lookup_insert.
  destruct (decide (s = t)) as [<-|Hne].
  - rewrite Hhit. by destruct (truthy (fresh_parse s)).
  - by destruct (truthy (cache_lookup cache t)).
Qed.

(** ** Transposition *)

Lemma trBy_intervals (i p : list Z) :
  isInterval (VArr i) = true → isInterval (VArr p) = true →
  ∃ f o d, trBy i p = Some [f; o; d] ∧ trBy p i = Some [f; o; d]
           ∧ (d = 1 ∨ d = -1).
Proof.
  intros Hi Hp.
  destruct i as [|i0 [|i1 [|i2 i]]]; try done.
  destruct p as [|p0 [|p1 [|p2 p]]]; try done.
  unfold trBy. simpl.
  replace (p0 + i0) with (i0 + p0) by lia.
  replace (p1 + i1) with (i1 + p1) by lia.
  eexists _, _, _. split; [reflexivity|]. split; [reflexivity|].
  case_bool_decide; auto.
Qed.

Lemma by_interval_comm (pa pb : value) :
  by_interval pa pb = by_interval pb pa.
Proof.
  unfold by_interval.
  destruct (isInterval pa) eqn:Ha, (isInterval pb) eqn:Hb; try done.
  destruct pa as [| | | | |i]; try done.
  destruct pb as [| | | | |p]; try done.
  destruct (trBy_intervals i p Ha Hb) as (f & o & d & H1 & H2 & _).
  unfold trBy_value. by rewrite H1, H2.
Qed.

Lemma transpose_result (a b : value) (cache : gmap string value) :
  (transpose a b cache).1
  = match by_interval (expectPitch a cache).1 (expectPitch b cache).1 with
    | Ok r => toPitchStr r
    | Throw e => Throw e
    end.
Proof.
  unfold transpose. rewrite <- (expectPitch_stable a b cache).
  destruct (expectPitch a cache) as [pa cache1]. simpl.
  destruct (expectPitch b cache1) as [pb cache2]. done.
Qed.

Lemma transpose_cache (a b : value) (cache : gmap string value) :
  (transpose a b cache).2 = (expectPitch b (expectPitch a cache).2).2.
Proof.
  unfold transpose.
  destruct (expectPitch a cache) as [pa cache1]. simpl.
  by destruct (expectPitch b cache1) as [pb cache2].
Qed.

(** The result of [transpose] does not depend on the order of its
    operands, nor on an earlier call with the same operands. *)
Lemma transpose_comm (a b : value) (cache : gmap string value) :
  (transpose b a cache).1 = (transpose a b cache).1
  ∧ (transpose b a (transpose a b cache).2).1 = (transpose a b cache).1.
Proof.
  rewrite !transpose_result, transpose_cache, !expectPitch_stable.
  by rewrite by_interval_comm.
Qed.

Lemma expectPitch_fresh (s : string) (cache : gmap string value) :
  cache !! s = None → (expectPitch (VStr s) cache).1 = fresh_parse s.
Proof.
  intros Hs. unfold expectPitch. simpl. rewrite parsePitch_str.
  unfold cache_lookup. by rewrite Hs.
Qed.

(** C2: when exactly one operand is interval-shaped, [transpose (a, b)] and
    [transpose (b, a)] return the same result, from the same cache and
    also when the second call follows the first; with [C4] read as the
    note C in octave 4 and [M3] as an ascending major third, both orders
    give [E4]. *)
Theorem transpose_symmetric (a b : value) (cache : gmap string value) :
  xorb (isInterval (expectPitch a cache).1)
       (isInterval (expectPitch b cache).1) = true →
  (transpose b a cache).1 = (transpose a b cache).1
  ∧ (transpose b a (transpose a b cache).2).1 = (transpose a b cache).1
  ∧ (note_parse "C4" = Some (NoteProps 0 0 (Some 4)) →
     note_parse "M3" = None →
     ivl_parse "M3" = Some (IvlProps 3 0 (Some 0) (Some 1)) →
     cache !! "C4" = None → cache !! "M3" = None →
     (transpose (VStr "C4") (VStr "M3") cache).1 = Ok (VStr "E4")
     ∧ (transpose (VStr "M3") (VStr "C4") cache).1 = Ok (VStr "E4")).
Proof.
  intros _. destruct (transpose_comm a b cache) as [Hsame Hseq].
  split; [done|]. split; [done|].
  intros HC4 HM3 HiM3 Hc1 Hc2.
  assert ((transpose (VStr "C4") (VStr "M3") cache).1 = Ok (VStr "E4")) as HE.
  { rewrite transpose_result, !expectPitch_fresh by done.
    unfold fresh_parse, note_of, ivl_of. rewrite HC4, HM3, HiM3.
    reflexivity. }
  split; [done|].
  by destruct (transpose_comm (VStr "C4") (VStr "M3") cache) as [-> _].
Qed.

(** C3, as the code has it: when neither operand is interval-shaped (two
    pitch classes or notes, or operands that fail to parse) the result is
    [null]; when both are interval-shaped, with coordinates [[f1, o1, ..]]
    and [[f2, o2, ..]], the result is the text that [strIvl] gives for the
    sum [[f1 + f2, o1 + o2, d]], where [d] is [-1] when the sum is below
    zero semitones and [1] otherwise; that text is never [null]. *)
Theorem transpose_shape_mismatch (a b : value) (cache : gmap string value) :
  (isInterval (expectPitch a cache).1 = false →
   isInterval (expectPitch b cache).1 = false →
   (transpose a b cache).1 = Ok VNull)
  ∧ (isInterval (expectPitch a cache).1 = true →
     isInterval (expectPitch b cache).1 = true →
     ∃ f1 o1 rest1 f2 o2 rest2 text,
       (expectPitch a cache).1 = VArr (f1 :: o1 :: rest1)
       ∧ (expectPitch b cache).1 = VArr (f2 :: o2 :: rest2)
       ∧ (transpose a b cache).1
         = strIvl [f1 + f2; o1 + o2;
                   if bool_decide (7 * (f1 + f2) + 12 * (o1 + o2) < 0)
                   then -1 else 1]
       ∧ (transpose a b cache).1 = Ok (VStr text)).
Proof.
  rewrite transpose_result. unfold by_interval. split.
  - by intros -> ->.
  - intros Ha Hb. rewrite Ha.
    destruct (expectPitch a cache).1 as [| | | | |i]; try done.
    destruct (expectPitch b cache).1 as [| | | | |p]; try done.
    destruct i as [|f1 [|o1 [|d1 i]]]; try done.
    destruct p as [|f2 [|o2 [|d2 p]]]; try done.
    set (sum := [f1 + f2; o1 + o2;
                 if bool_decide (7 * (f1 + f2) + 12 * (o1 + o2) < 0)
                 then -1 else 1]).
    assert (trBy (f1 :: o1 :: d1 :: i) (f2 :: o2 :: d2 :: p) = Some sum)
      as Htr by reflexivity.
    unfold trBy_value. rewrite Htr.
    assert (toPitchStr (VArr sum) = strIvl sum) as ->.
    { unfold toPitchStr, strPitch, sum. simpl.
      destruct (bool_decide (7 * (f1 + f2) + 12 * (o1 + o2) < 0)); done. }
    destruct (decode_total (f1 + f2)
                [o1 + o2;
                 if bool_decide (7 * (f1 + f2) + 12 * (o1 + o2) < 0)
                 then -1 else 1]) as (dec & Hdec & _).
    eexists f1, o1, (d1 :: i), f2, o2, (d2 :: p), _.
    split; [done|]. split; [done|]. split; [done|].
    unfold strIvl. fold sum in Hdec. rewrite Hdec. reflexivity.
Qed.

End parser_facts.

Lemma transpose_symmetric_witness :
  xorb (isInterval (@expectPitch sample_grammars (VStr "C4") ∅).1)
       (isInterval (@expectPitch sample_grammars (VStr "M3") ∅).1) = true
  ∧ (@transpose sample_grammars (VStr "M3") (VStr "C4") ∅).1
  = (@transpose sample_grammars (VStr "C4") (VStr "M3") ∅).1
  ∧ (@transpose sample_grammars (VStr "C4") (VStr "M3") ∅).1 = Ok (VStr "E4").
Proof.
  assert (xorb (isInterval (@expectPitch sample_grammars (VStr "C4") ∅).1)
               (isInterval (@expectPitch sample_grammars (VStr "M3") ∅).1) = true) as Hone
    by (vm_compute; reflexivity).
  destruct (@transpose_symmetric sample_grammars (VStr "C4") (VStr "M3") ∅ Hone)
    as (Hsame & _ & Hex).
  split; [exact Hone|]. split; [exact Hsame|].
  by destruct (Hex eq_refl eq_refl eq_refl eq_refl eq_refl).
Defined.

Lemma transpose_shape_mismatch_witness :
  (@transpose sample_grammars (VStr "C4") (VStr "H9") ∅).1 = Ok VNull
  ∧ ∃ f1 o1 rest1 f2 o2 rest2 text,
      (@expectPitch sample_grammars (VStr "M3") ∅).1 = VArr (f1 :: o1 :: rest1)
      ∧ (@expectPitch sample_grammars (VArr [1; -1; 1]) ∅).1
        = VArr (f2 :: o2 :: rest2)
      ∧ (@transpose sample_grammars (VStr "M3") (VArr [1; -1; 1]) ∅).1
        = @strIvl sample_grammars
            [f1 + f2; o1 + o2;
             if bool_decide (7 * (f1 + f2) + 12 * (o1 + o2) < 0)
             then -1 else 1]
      ∧ (@transpose sample_grammars (VStr "M3") (VArr [1; -1; 1]) ∅).1
        = Ok (VStr text).
Proof.
  split.
  - apply (@transpose_shape_mismatch sample_grammars (VStr "C4") (VStr "H9") ∅);
      vm_compute; reflexivity.
  - apply (@transpose_shape_mismatch sample_grammars (VStr "M3") (VArr [1; -1; 1]) ∅);
      vm_compute; reflexivity.
Defined.

(** C3 fails when both operands are intervals: two major thirds, as tuples
    or as text, are added to an augmented fifth. *)
Lemma transpose_two_intervals_not_null :
  isInterval (VArr [4; -2; 1]) = true
  ∧ (@transpose sample_grammars (VArr [4; -2; 1]) (VArr [4; -2; 1]) ∅).1 = Ok (VStr "5A")
  ∧ isInterval (@expectPitch sample_grammars (VStr "M3") ∅).1 = true
  ∧ (@transpose sample_grammars (VStr "M3") (VStr "M3") ∅).1 = Ok (VStr "5A")
  ∧ (@transpose sample_grammars (VStr "M3") (VStr "M3") ∅).1 ≠ Ok VNull.
Proof. by vm_compute. Qed.

(** ** Midi numbers *)

Section midi_facts.
Context `{!Grammars}.

Lemma midi_result (val : value) (cache : gmap string value) :
  (midi val cache).1
  = let p := (expectNote val cache).1 in
    if hasOct p then
      match p with
      | VArr l => match height l with
                  | Some h => VNum (num_of_Z (h + 12))
                  | None => VNum NaN
                  end
      | _ => VNum NaN
      end
    else if isMidi val then VNum (to_number val)
    else VNull.
Proof. unfold midi. by destruct (expectNote val cache). Qed.


(** [isMidi]: not an array, and the numeric coercion lies strictly between
    0 and 129. *)
Lemma isMidi_spec (m : value) :
  isMidi m = true
  ↔ isArr m = false
    ∧ ∃ x, to_number m = Fin x ∧ (0 < x)%Qc ∧ (x < Qc_of_Z 129)%Qc.
Proof.
  unfold isMidi, num_of_Z. rewrite !andb_true_iff, negb_true_iff.
  rewrite Z2Qc_inj_0. split.
  - intros [[Harr Hlo] Hhi]. split; [done|].
    destruct (to_number m) as [|[]|x]; try done.
    exists x. simpl in *.
    apply bool_decide_eq_true in Hlo, Hhi. done.
  - intros (Harr & x & -> & Hlo & Hhi). simpl.
    by rewrite !bool_decide_eq_true_2.
Qed.

Lemma expectNote_fresh (s : string) (cache : gmap string value) :
  cache !! s = None → (expectNote (VStr s) cache).1 = note_of s.
Proof.
  intros Hs. unfold expectNote, parseNote, cached, cache_lookup. simpl.
  by rewrite Hs.
Qed.

Lemma midi_number (x : Qc) (cache : gmap string value) :
  (0 < x)%Qc → (x < Qc_of_Z 129)%Qc →
  midi (VNum (Fin x)) cache = (VNum (Fin x), cache).
Proof.
  intros Hlo Hhi. unfold midi. simpl.
  assert (isMidi (VNum (Fin x)) = true) as ->; [|done].
  apply isMidi_spec. split; [done|]. by exists x.
Qed.


(** C10: every value that is not an array, whose text or tuple reading has
    no octave component and whose numeric coercion [x] satisfies
    [0 < x < 129] is returned as that number; in particular 60.5 and 128.5
    are returned unchanged. *)
Theorem midi_accepts_open_interval (val : value) (x : Qc)
    (cache : gmap string value) :
  isArr val = false → hasOct (expectNote val cache).1 = false →
  to_number val = Fin x → (0 < x)%Qc → (x < Qc_of_Z 129)%Qc →
  (midi val cache).1 = VNum (Fin x)
  ∧ midi (VNum (Fin x)) cache = (VNum (Fin x), cache)
  ∧ midi (VNum (Fin (Q2Qc (121 # 2)))) cache
    = (VNum (Fin (Q2Qc (121 # 2))), cache)
  ∧ midi (VNum (Fin (Q2Qc (257 # 2)))) cache
    = (VNum (Fin (Q2Qc (257 # 2))), cache).
Proof.
  intros Harr Hoct Hx Hlo Hhi.
  split; [|split; [|split]].
  - rewrite midi_result. simpl. rewrite Hoct.
    assert (isMidi val = true) as ->; [|by rewrite Hx].
    apply isMidi_spec. split; [done|]. by exists x.
  - by apply midi_number.
  - by apply midi_number.
  - by apply midi_number.
Qed.

End midi_facts.


Lemma midi_accepts_open_interval_witness :
  (0 < Q2Qc (121 # 2))%Qc ∧ (Q2Qc (121 # 2) < Qc_of_Z 129)%Qc
  ∧ (@midi sample_grammars (VNum (Fin (Q2Qc (121 # 2)))) ∅).1
    = VNum (Fin (Q2Qc (121 # 2))).
Proof.
  split; [reflexivity|]. split; [reflexivity|].
  apply (@midi_accepts_open_interval sample_grammars
           (VNum (Fin (Q2Qc (121 # 2)))) (Q2Qc (121 # 2)) ∅);
    reflexivity.
Defined.


(** ** Frequencies *)

Section frequency_facts.
Context `{!Grammars}.

Lemma wellTempered_result (ref : R) (pitch : value) (cache : gmap string value) :
  (wellTempered ref pitch cache).1
  = let m := (midi pitch cache).1 in
    if truthy m then
      match m with
      | VNum n => Some (Rpower 2 ((number_to_R n - 69) / 12) * ref)%R
      | _ => None
      end
    else None.
Proof. unfold wellTempered. by destruct (midi pitch cache). Qed.

(** A midi number other than zero gives the frequency of the formula, and
    [null] gives [null]. *)
Lemma wellTempered_valid (ref : R) (pitch : value) (x : Qc)
    (cache : gmap string value) :
  (midi pitch cache).1 = VNum (Fin x) → x ≠ 0%Qc →
  (wellTempered ref pitch cache).1
  = Some (Rpower 2 ((Q2R (this x) - 69) / 12) * ref)%R.
Proof.
  intros Hm Hx. rewrite wellTempered_result, Hm. simpl.
  by rewrite bool_decide_eq_false_2.
Qed.

Lemma wellTempered_null (ref : R) (pitch : value) (cache : gmap string value) :
  (midi pitch cache).1 = VNull → (wellTempered ref pitch cache).1 = None.
Proof. intros Hm. by rewrite wellTempered_result, Hm. Qed.

Lemma toFreq_A4 (cache : gmap string value) :
  note_parse "A4" = Some (NoteProps 5 0 (Some 4)) → cache !! "A4" = None →
  (toFreq (VStr "A4") cache).1 = Some 440%R.
Proof.
  intros HA4 Hc. unfold toFreq.
  erewrite (wellTempered_valid _ _ (Qc_of_Z 69)).
  - f_equal. simpl. unfold Q2R. simpl.
    replace ((69 * / 1 - 69) / 12)%R with 0%R by lra.
    rewrite Rpower_O by lra. lra.
  - rewrite midi_result, expectNote_fresh by done.
    unfold note_of. rewrite HA4. reflexivity.
  - by vm_compute.
Qed.

(** C7 at the note C-1, the tuple [[0, -1]]: its midi number is 0, which is
    not [null], and the frequency function returns [null] for it, for every
    reference frequency. *)
Theorem wellTempered_midi_zero (ref : R) (cache : gmap string value) :
  midi (VArr [0; -1]) cache = (VNum (num_of_Z 0), cache)
  ∧ (midi (VArr [0; -1]) cache).1 ≠ VNull
  ∧ wellTempered ref (VArr [0; -1]) cache = (None, cache)
  ∧ (∃ hz, (wellTempered ref (VArr [0; -2]) cache).1 = Some hz).
Proof.
  split; [reflexivity|]. split; [discriminate|]. split; [reflexivity|].
  eexists. reflexivity.
Qed.

End frequency_facts.

(** ** Forcing a direction *)

Section direction_facts.
Import Direction.
Context {item : Type} `{!NoteLibrary item}.

(** Moving a note that was read from the list to octave [o] and reading
    its name again changes its midi number by whole octaves. *)
Hypothesis octave_shift : ∀ (x : item) (o : Z),
  midi (note (name (note_oct (note x) o)))
  = midi (note x) + 12 * (o - oct (note x)).

Lemma direction_loop_up (rest : list item) (last : item) :
  contour kept_up last rest (direction_loop GT 1 last rest).
Proof.
  revert last. induction rest as [|x rest IH]; intros last; [done|].
  simpl. split; [|apply IH].
  unfold kept_up, height_of, GT. case_bool_decide as Hcmp.
  - right. rewrite octave_shift.
    set (hp := midi (note last)) in *. set (hx := midi (note x)) in *.
    split; [lia|]. split.
    + exists ((hp - hx) `div` 12 + 1). lia.
    + pose proof (Z.div_mod (hp - hx) 12 ltac:(lia)).
      pose proof (Z.mod_pos_bound (hp - hx) 12 ltac:(lia)). lia.
  - left. split; [lia|done].
Qed.

Lemma direction_loop_down (rest : list item) (last : item) :
  contour kept_down last rest (direction_loop LT 0 last rest).
Proof.
  revert last. induction rest as [|x rest IH]; intros last; [done|].
  simpl. split; [|apply IH].
  unfold kept_down, height_of, LT. case_bool_decide as Hcmp.
  - right. rewrite octave_shift.
    set (hp := midi (note last)) in *. set (hx := midi (note x)) in *.
    split; [lia|]. split.
    + exists (- ((hp - hx) `div` 12 + 0)). lia.
    + intros Hoct.
      pose proof (Z.div_mod (hp - hx) 12 ltac:(lia)).
      pose proof (Z.mod_pos_bound (hp - hx) 12 ltac:(lia)).
      assert ((hp - hx) `mod` 12 ≠ 0) as Hrem.
      { intros Hzero. apply Hoct. exists (- ((hp - hx) `div` 12)). lia. }
      lia.
  - left. split; [lia|done].
Qed.

(** Ascending, a kept entry is never below the one kept before it. *)
Lemma kept_up_le (prev x y : item) :
  kept_up prev x y → height_of prev ≤ height_of y.
Proof. intros [[? ->]|(? & ? & ?)]; lia. Qed.

(** C4, as the code has it: the first entry is kept; every later entry that
    is not below (ascending) or not above (descending) the previous kept
    entry, equal heights included, is kept unchanged; every other one is
    moved by whole octaves: ascending, up by the least number of octaves
    that puts it strictly above the previous kept entry; descending, down
    by the least number of octaves that puts it strictly below, whenever
    it does not lie a whole number of octaves above the previous kept
    entry. *)
Theorem direction_contour (x : item) (rest : list item) :
  (∃ outs, direction (x :: rest) (VNum (num_of_Z 1)) = Ok (x :: outs)
           ∧ contour kept_up x rest outs)
  ∧ (∃ outs, direction (x :: rest) (VNum (num_of_Z (-1))) = Ok (x :: outs)
             ∧ contour kept_down x rest outs)
  ∧ direction [] (VNum (num_of_Z 1)) = Ok []
  ∧ direction [] (VNum (num_of_Z (-1))) = Ok [].
Proof.
  split; [|split; [|split; reflexivity]].
  - eexists. split; [reflexivity|]. apply direction_loop_up.
  - eexists. split; [reflexivity|]. apply direction_loop_down.
Qed.

(** C5, as the code has it: a direction that is truthy and neither [1] nor
    [-1] throws; a falsy direction (0, [NaN], absent, [null], [false], the
    empty text) stands for [1] and returns a result. *)
Theorem direction_flag (items : list item) (dir : value) :
  (truthy dir = true → dir ≠ VNum (num_of_Z 1) →
   dir ≠ VNum (num_of_Z (-1)) →
   direction items dir = Throw (Error "Direction not valid: " dir))
  ∧ (truthy dir = false →
     direction items dir = direction items (VNum (num_of_Z 1))
     ∧ ∃ result, direction items dir = Ok result).
Proof.
  split.
  - intros Ht H1 H2. unfold direction. rewrite Ht. simpl.
    by rewrite (bool_decide_eq_true_2 _ H1), (bool_decide_eq_true_2 _ H2).
  - intros Ht. unfold direction. rewrite Ht. simpl. split; [done|].
    eexists. reflexivity.
Qed.

End direction_facts.

Lemma tones_octave_shift (x : Z * Z) (o : Z) :
  Direction.midi (Direction.tone_note (Direction.name
    (@Direction.note_oct _ Direction.tones (Direction.tone_note x) o)))
  = Direction.midi (Direction.tone_note x)
    + 12 * (o - Direction.oct (Direction.tone_note x)).
Proof. destruct x as [pc o']. simpl. lia. Qed.

Lemma direction_contour_witness :
  @Direction.direction _ Direction.tones [(0, 4); (7, 3); (4, 5)]
    (VNum (num_of_Z 1))
  = Ok [(0, 4); (7, 4); (4, 5)]
  ∧ ∃ outs,
      @Direction.direction _ Direction.tones [(0, 4); (7, 3); (4, 5)]
        (VNum (num_of_Z 1)) = Ok ((0, 4) :: outs)
      ∧ @Direction.contour _ (@Direction.kept_up _ Direction.tones)
          (0, 4) [(7, 3); (4, 5)] outs.
Proof.
  split; [reflexivity|].
  exact (proj1 (@direction_contour _ Direction.tones tones_octave_shift
                  (0, 4) [(7, 3); (4, 5)])).
Defined.

(** C4 fails on equal heights: a repeated note is kept as it is, ascending
    and descending, since the comparators only fire on a strict violation.
    The result is not strictly monotonic. *)
Lemma direction_not_strict :
  @Direction.direction _ Direction.tones [(0, 4); (0, 4)] (VNum (num_of_Z 1))
  = Ok [(0, 4); (0, 4)]
  ∧ @Direction.direction _ Direction.tones [(0, 4); (0, 4)]
      (VNum (num_of_Z (-1)))
    = Ok [(0, 4); (0, 4)]
  ∧ ¬ (@Direction.height_of _ Direction.tones (0, 4)
       < @Direction.height_of _ Direction.tones (0, 4))
  ∧ ¬ (@Direction.height_of _ Direction.tones (0, 4)
       > @Direction.height_of _ Direction.tones (0, 4)).
Proof.
  split; [reflexivity|]. split; [reflexivity|].
  split; vm_compute; discriminate.
Qed.

(** At whole octaves the two directions differ: descending, a note one
    octave above the previous kept one lands on it; ascending, a note one
    octave below lands one octave beyond. *)
Lemma direction_exact_octaves :
  @Direction.direction _ Direction.tones [(0, 4); (0, 5)]
    (VNum (num_of_Z (-1)))
  = Ok [(0, 4); (0, 4)]
  ∧ @Direction.direction _ Direction.tones [(0, 5); (0, 4)]
      (VNum (num_of_Z 1))
    = Ok [(0, 5); (0, 6)].
Proof. split; reflexivity. Qed.

Lemma direction_flag_witness :
  truthy (VNum (num_of_Z 2)) = true
  ∧ @Direction.direction _ Direction.tones [(0, 4); (7, 3)] (VNum (num_of_Z 2))
    = Throw (Error "Direction not valid: " (VNum (num_of_Z 2)))
  ∧ truthy VNull = false
  ∧ @Direction.direction _ Direction.tones [(0, 4); (7, 3)] VNull
    = @Direction.direction _ Direction.tones [(0, 4); (7, 3)]
        (VNum (num_of_Z 1)).
Proof.
  destruct (@direction_flag _ Direction.tones [(0, 4); (7, 3)]
              (VNum (num_of_Z 2))) as [Hthrow _].
  destruct (@direction_flag _ Direction.tones [(0, 4); (7, 3)] VNull)
    as [_ Hdefault].
  split; [reflexivity|]. split.
  - apply Hthrow; [reflexivity|..]; intros [=].
  - split; [reflexivity|]. by apply Hdefault.
Defined.

(** C5 fails for a direction of 0 and for an absent direction: the call
    returns the ascending result instead of aborting. *)
Lemma direction_zero_returns :
  @Direction.direction _ Direction.tones [(0, 4); (7, 3)] (VNum (num_of_Z 0))
  = Ok [(0, 4); (7, 4)]
  ∧ @Direction.direction _ Direction.tones [(0, 4); (7, 3)] VUndef
    = Ok [(0, 4); (7, 4)].
Proof. split; reflexivity. Qed.

(** X14: an interval with an operand that cannot be read: [trBy] indexes
    [null]. *)
Lemma transpose_unparsed_subject_throws `{!Grammars} (a b : value)
    (cache : gmap string value) :
  isInterval (expectPitch a cache).1 = true →
  (expectPitch b cache).1 = VNull →
  (transpose a b cache).1 = Throw TypeError
  ∧ (transpose b a cache).1 = Throw TypeError.
Proof.
  intros Ha Hb.
  destruct (transpose_comm a b cache) as [-> _].
  rewrite transpose_result, Hb. unfold by_interval. rewrite Ha.
  by destruct (expectPitch a cache).1.
Qed.


(** * Further properties *)

(** ** The coordinates that [pitch] builds *)

Lemma pitch_coords (s a : Z) :
  0 ≤ s ≤ 6 →
  ∃ f fo, js_index FIFTHS s = Some f ∧ js_index FIFTH_OCTS s = Some fo
    ∧ js_index step_semitones s = Some (7 * f - 12 * fo)
    ∧ pitch s a None None = Some [f + 7 * a]
    ∧ (∀ o, pitch s a (Some o) None = Some [f + 7 * a; o - fo - 4 * a])
    ∧ (∀ o d, pitch s a (Some o) (Some d)
              = let sg := if bool_decide (d < 0) then -1 else 1 in
                Some [sg * (f + 7 * a); sg * (o - fo - 4 * a); sg]).
Proof.
  intros H.
  step_split H; eexists _, _;
    (split; [vm_compute; reflexivity|]);
    (split; [vm_compute; reflexivity|]);
    repeat split; reflexivity.
Qed.



Section midi_of_pitch.
Context `{!Grammars}.

Lemma midi_note_tuple (f o : Z) (cache : gmap string value) :
  midi (VArr [f; o]) cache = (VNum (num_of_Z (f * 7 + 12 * o + 12)), cache).
Proof. reflexivity. Qed.

(** X2: the midi number of an encoded note: the semitones of its letter, plus
    the alteration, plus twelve for every octave, with C-1 at zero. *)
Theorem midi_of_pitch (s a o : Z) (cache : gmap string value) :
  0 ≤ s ≤ 6 →
  ∃ p sm, pitch s a (Some o) None = Some p
          ∧ js_index step_semitones s = Some sm
          ∧ height p = Some (sm + a + 12 * o)
          ∧ midi (VArr p) cache
            = (VNum (num_of_Z (sm + a + 12 * (o + 1))), cache).
Proof.
  intros Hs.
  destruct (pitch_coords s a Hs) as (f & fo & _ & _ & Hsm & _ & Hn & _).
  eexists _, _. split; [apply Hn|]. split; [exact Hsm|].
  split.
  - unfold height. simpl. f_equal. lia.
  - rewrite midi_note_tuple. do 3 f_equal. lia.
Qed.

End midi_of_pitch.

Lemma midi_of_pitch_witness :
  0 ≤ 5 ≤ 6
  ∧ ∃ p sm, pitch 5 0 (Some 4) None = Some p
            ∧ js_index step_semitones 5 = Some sm
            ∧ height p = Some (sm + 0 + 12 * 4)
            ∧ @midi sample_grammars (VArr p) ∅
              = (VNum (num_of_Z (sm + 0 + 12 * (4 + 1))), ∅).
Proof.
  split; [lia|].
  apply (@midi_of_pitch sample_grammars 5 0 4 ∅). lia.
Defined.

(** ** From midi numbers to names and back *)

Lemma chromatic_step (useSharps : bool) (m : Z) :
  0 ≤ m →
  ∃ s a, chromatic useSharps m
         = strNote_pitch (Some (Some s)) a (m `div` 12 - 1)
         ∧ 0 ≤ s ≤ 6
         ∧ js_index step_semitones s = Some (m `mod` 12 - a).
Proof.
  intros Hm.
  pose proof (Z.mod_pos_bound m 12 ltac:(lia)) as Hr.
  pose proof (midiStep_chroma m _ Hm eq_refl) as Hc.
  assert (midiStep (m - 1) = js_index CHROMATIC (m `mod` 12 - 1)
          ∨ m `mod` 12 = 0) as Hdown.
  { destruct (decide (m `mod` 12 = 0)); [by right|left].
    apply midiStep_chroma; [|]; Z.to_euclidean_division_equations; lia. }
  assert (midiStep (m + 1) = js_index CHROMATIC (m `mod` 12 + 1)
          ∨ m `mod` 12 = 11) as Hup.
  { destruct (decide (m `mod` 12 = 11)); [by right|left].
    apply midiStep_chroma; [|]; Z.to_euclidean_division_equations; lia. }
  revert Hc Hdown Hup.
  assert (m `mod` 12 ∈ [0; 1; 2; 3; 4; 5; 6; 7; 8; 9; 10; 11]) as Hin.
  { repeat rewrite elem_of_cons. lia. }
  clear Hr. revert Hin. generalize (m `mod` 12). intros r Hin Hc Hdown Hup.
  repeat (apply elem_of_cons in Hin as [-> | Hin]);
    [..|by apply elem_of_nil in Hin];
    destruct Hdown as [Hdown|?]; try lia;
    destruct Hup as [Hup|?]; try lia;
    repeat eval_rhs; unfold chromatic; rewrite Hc;
    first
      [ rewrite bool_decide_eq_false_2 by discriminate
      | rewrite bool_decide_eq_true_2 by done;
        destruct useSharps; simpl; [rewrite Hdown | rewrite Hup] ];
    eexists _, _; (split; [reflexivity|]); (split; [lia | reflexivity]).
Qed.

(** X3: for a midi number [m >= 0], with sharps and with flats, [chromatic]
    returns a text: the name (letter, accidentals, octave) of an encoded
    note [pitch (step, alt, floor (m / 12) - 1)] whose midi number is [m]. *)
Theorem chromatic_midi_roundtrip `{!Grammars} (useSharps : bool) (m : Z) :
  0 ≤ m →
  ∃ s a n, 0 ≤ s ≤ 6
    ∧ pitch s a (Some (m `div` 12 - 1)) None = Some n
    ∧ isPitchNote (VArr n) = true
    ∧ chromatic useSharps m
      = Ok (VStr (stepLetter s +:+ altAcc a +:+ pretty (m `div` 12 - 1)))
    ∧ strNote n = chromatic useSharps m
    ∧ ∀ cache, midi (VArr n) cache = (VNum (num_of_Z m), cache).
Proof.
  intros Hm.
  destruct (chromatic_step useSharps m Hm) as (s & a & Hchr & Hs & Hsm).
  destruct (pitch_coords s a Hs) as (f & fo & _ & _ & Hsm' & _ & Hn & _).
  exists s, a, [f + 7 * a; m `div` 12 - 1 - fo - 4 * a].
  split; [done|]. split; [apply Hn|]. split; [done|].
  pose proof (strNote_note s a (m `div` 12 - 1) Hs) as Hname.
  split; [by rewrite Hchr|]. split.
  - rewrite Hchr. unfold strNote_pitch. by rewrite Hn.
  - intros cache. rewrite midi_note_tuple. do 3 f_equal.
    rewrite Hsm in Hsm'. simplify_eq.
    pose proof (Z.div_mod m 12 ltac:(lia)). lia.
Qed.

Lemma chromatic_midi_roundtrip_witness :
  0 ≤ 61
  ∧ ∃ s a n, 0 ≤ s ≤ 6
      ∧ pitch s a (Some (61 `div` 12 - 1)) None = Some n
      ∧ isPitchNote (VArr n) = true
      ∧ chromatic true 61
        = Ok (VStr (stepLetter s +:+ altAcc a +:+ pretty (61 `div` 12 - 1)))
      ∧ strNote n = chromatic true 61
      ∧ ∀ cache, @midi sample_grammars (VArr n) cache
                 = (VNum (num_of_Z 61), cache).
Proof.
  split; [lia|].
  apply (@chromatic_midi_roundtrip sample_grammars true 61). lia.
Defined.

(** ** Transposition on tuples *)

Lemma midi_octave_tuple `{!Grammars} (f o : Z) (rest : list Z)
    (cache : gmap string value) :
  midi (VArr (f :: o :: rest)) cache
  = (VNum (num_of_Z (f * 7 + 12 * o + 12)), cache).
Proof. reflexivity. Qed.

(** X4: transposing adds semitones: the height of the result is the sum of the
    heights, so the midi number of a transposed note moves by the semitones
    of the interval. *)
Theorem trBy_adds_heights `{!Grammars} (i p : list Z) :
  hasOct (VArr i) = true → hasOct (VArr p) = true →
  ∃ r hi hp, trBy i p = Some r
             ∧ height i = Some hi ∧ height p = Some hp
             ∧ height r = Some (hi + hp)
             ∧ ∀ cache, midi (VArr r) cache
                        = (VNum (num_of_Z (hp + 12 + hi)), cache).
Proof.
  intros Hi Hp.
  destruct i as [|i0 [|i1 i]]; try done.
  destruct p as [|p0 [|p1 [|p2 p]]]; try done;
    eexists _, _, _;
    (split; [reflexivity|]); (split; [reflexivity|]);
    (split; [reflexivity|]);
    (split; [unfold height; simpl; f_equal; lia|]); intros cache;
    rewrite midi_octave_tuple; do 3 f_equal; lia.
Qed.

Lemma trBy_adds_heights_witness :
  hasOct (VArr [4; -2; 1]) = true ∧ hasOct (VArr [0; 4]) = true
  ∧ ∃ r hi hp, trBy [4; -2; 1] [0; 4] = Some r
               ∧ height [4; -2; 1] = Some hi ∧ height [0; 4] = Some hp
               ∧ height r = Some (hi + hp)
               ∧ ∀ cache, @midi sample_grammars (VArr r) cache
                          = (VNum (num_of_Z (hp + 12 + hi)), cache).
Proof.
  split; [reflexivity|]. split; [reflexivity|].
  apply (@trBy_adds_heights sample_grammars [4; -2; 1] [0; 4]); reflexivity.
Defined.

(** Equality of computed tuples, component by component. *)
Ltac tuple_eq :=
  unfold trBy; simpl;
  repeat match goal with
         | |- Some _ = Some _ => f_equal
         | |- _ :: _ = _ :: _ => f_equal
         | |- @eq Z _ _ => lia
         | |- @eq (list Z) [] [] => reflexivity
         end.

(** X5: on pitch classes and notes the unison leaves the subject as it is, and
    the opposite interval undoes a transposition. *)
Theorem trBy_unison_and_inverse (f o d : Z) (p : list Z) :
  length p = 1%nat ∨ length p = 2%nat →
  trBy [0; 0; 1] p = Some p
  ∧ ∃ q, trBy [f; o; d] p = Some q
         ∧ length q = length p
         ∧ trBy [- f; - o; - d] q = Some p.
Proof.
  intros Hlen.
  destruct p as [|p0 [|p1 [|p2 p]]]; simpl in Hlen; try lia.
  - split; [tuple_eq|]. eexists. split; [reflexivity|].
    split; [reflexivity|]. tuple_eq.
  - split; [tuple_eq|]. eexists. split; [reflexivity|].
    split; [reflexivity|]. tuple_eq.
Qed.

Lemma trBy_unison_and_inverse_witness :
  (length [0; 4] = 1%nat ∨ length [0; 4] = 2%nat)
  ∧ ∃ q, trBy [4; -2; 1] [0; 4] = Some q
         ∧ length q = length [0; 4]
         ∧ trBy [- 4; - -2; - 1] q = Some [0; 4].
Proof.
  split; [by right|].
  apply (trBy_unison_and_inverse 4 (-2) 1 [0; 4]). by right.
Defined.

(** X6: two transpositions compose: transposing by [j] and then by [i] is
    transposing by the sum of [i] and [j], in either order. *)
Theorem trBy_compose (i j p : list Z) :
  hasOct (VArr i) = true → hasOct (VArr j) = true → isPitch (VArr p) = true →
  ∃ r, (trBy j p ≫= trBy i) = Some r
       ∧ (trBy i p ≫= trBy j) = Some r
       ∧ (trBy i j ≫= λ ij, trBy ij p) = Some r
       ∧ length r = (length p `min` 3)%nat.
Proof.
  intros Hi Hj Hp.
  destruct i as [|i0 [|i1 i]]; try done.
  destruct j as [|j0 [|j1 j]]; try done.
  assert (∀ r : list Z, (trBy (i0 :: i1 :: i) (j0 :: j1 :: j) ≫= λ ij, trBy ij p)
                        = trBy [i0 + j0; i1 + j1] p) as Hij.
  { intros _. by destruct j as [|j2 j]. }
  rewrite (Hij []). clear Hij.
  destruct p as [|p0 [|p1 [|p2 p]]]; try done.
  - exists [i0 + j0 + p0].
    split; [tuple_eq|]. split; [tuple_eq|]. done.
  - exists [i0 + j0 + p0; i1 + j1 + p1].
    split; [tuple_eq|]. split; [tuple_eq|]. done.
  - exists [i0 + j0 + p0; i1 + j1 + p1;
            if bool_decide (7 * (i0 + j0 + p0) + 12 * (i1 + j1 + p1) < 0)
            then -1 else 1].
    unfold trBy. simpl.
    replace (i0 + (j0 + p0)) with (i0 + j0 + p0) by lia.
    replace (i1 + (j1 + p1)) with (i1 + j1 + p1) by lia.
    replace (j0 + (i0 + p0)) with (i0 + j0 + p0) by lia.
    replace (j1 + (i1 + p1)) with (i1 + j1 + p1) by lia.
    repeat split. lia.
Qed.

Lemma trBy_compose_witness :
  hasOct (VArr [4; -2; 1]) = true ∧ hasOct (VArr [1; 0; 1]) = true
  ∧ isPitch (VArr [0; 4]) = true
  ∧ ∃ r, (trBy [1; 0; 1] [0; 4] ≫= trBy [4; -2; 1]) = Some r
         ∧ (trBy [4; -2; 1] [0; 4] ≫= trBy [1; 0; 1]) = Some r
         ∧ (trBy [4; -2; 1] [1; 0; 1] ≫= λ ij, trBy ij [0; 4]) = Some r
         ∧ length r = (length [0; 4] `min` 3)%nat.
Proof.
  split; [reflexivity|]. split; [reflexivity|]. split; [reflexivity|].
  apply (trBy_compose [4; -2; 1] [1; 0; 1] [0; 4]); reflexivity.
Defined.

(** ** Descending intervals *)

Lemma decodeStep_shift (f k : Z) : decodeStep (f + 7 * k) = decodeStep f.
Proof.
  unfold decodeStep. rewrite !unaltered_mod. f_equal.
  replace (f + 7 * k + 1) with (f + 1 + k * 7) by lia.
  by rewrite Z.mod_add.
Qed.

Lemma decodeAlt_shift (f k : Z) : decodeAlt (f + 7 * k) = decodeAlt f + k.
Proof.
  unfold decodeAlt.
  replace (f + 7 * k + 1) with (f + 1 + k * 7) by lia.
  by rewrite Z.div_add.
Qed.

(** Equality of two decoded records whose fields are equal integers. *)
Lemma Decoded_eq (s1 s2 a1 a2 o1 o2 : Z) (d : option Z) :
  s1 = s2 → a1 = a2 → o1 = o2 →
  Some (Decoded s1 a1 (Some o1) d) = Some (Decoded s2 a2 (Some o2) d).
Proof. by intros -> -> ->. Qed.

(** Evaluate a table lookup at a closed index. *)
Ltac eval_tables :=
  repeat match goal with
         | |- context [decodeStep ?x] =>
             let v := eval vm_compute in (decodeStep x) in
             change (decodeStep x) with v
         | |- context [decodeAlt ?x] =>
             let v := eval vm_compute in (decodeAlt x) in
             change (decodeAlt x) with v
         | |- context [js_index FIFTH_OCTS ?x] =>
             let v := eval vm_compute in (js_index FIFTH_OCTS x) in
             change (js_index FIFTH_OCTS x) with v
         | |- context [fifthsSpan ?x] =>
             let v := eval vm_compute in (fifthsSpan x) in
             change (fifthsSpan x) with v
         | |- context [complement_step ?x] =>
             let v := eval vm_compute in (complement_step x) in
             change (complement_step x) with v
         | |- context [perfect_step ?x] =>
             let v := eval vm_compute in (perfect_step x) in
             change (perfect_step x) with v
         end.

Lemma decode_descending_coords (s a o : Z) :
  0 ≤ s ≤ 6 →
  ∃ x y, pitch s a (Some o) (Some (-1)) = Some [x; y; -1]
    ∧ decode [x; y; -1]
      = Some (Decoded (complement_step s)
                (if perfect_step s then - a else - a - 1)
                (Some (if bool_decide (s = 0) then - o else - o - 1))
                (Some (-1))).
Proof.
  intros Hs.
  destruct (pitch_coords s a Hs) as (f & fo & Hf & Hfo & _ & _ & _ & Hi).
  rewrite Hi. simpl. eexists _, _. split; [reflexivity|].
  unfold decode. simpl.
  replace (-1 * (f + 7 * a)) with (- f + 7 * (- a)) by lia.
  rewrite decodeStep_shift, decodeAlt_shift.
  step_split Hs; vm_compute in Hf, Hfo; simplify_eq;
    eval_tables; simpl; eval_tables; simpl;
    rewrite ?bool_decide_eq_true_2 by done;
    rewrite ?bool_decide_eq_false_2 by done;
    eval_tables; apply Decoded_eq; lia.
Qed.

Lemma reencode_descending (f o : Z) :
  reencode [f; o; -1] = Some [- f; - o; -1].
Proof.
  destruct (fifths_of_decodeStep f) as (s & Hs & Hr & Hf).
  destruct (FIFTH_OCTS_total s Hr) as [fo Hfo].
  unfold reencode, decode. simpl. rewrite Hs. simpl. rewrite Hfo. simpl.
  unfold pitch, encPC, encOct. rewrite bool_decide_eq_false_2 by lia.
  rewrite Hf. simpl. rewrite Hfo. simpl. f_equal.
  f_equal; [lia|]. f_equal. lia.
Qed.

(** C1, as the code has it: [decode] inverts [pitch] for pitch classes, for
    notes and for ascending intervals (direction absent or [+1]), for every
    step in [0..6] and all integers [alt] and [oct]; and encoding what
    [decode] returns gives back every pitch class [[f]], every note [[f, o]]
    and every ascending interval [[f, o, 1]].  For a descending interval
    [pitch] negates both coordinates: [decode] then returns direction [-1]
    with the step, alteration and octave of the inverted interval, which are
    the ones given to [pitch] only for step 0, alt 0, oct 0; and encoding
    what [decode] returns for [[f, o, -1]] gives [[-f, -o, -1]], which is
    the same tuple only for [f = 0] and [o = 0]. *)
Theorem encode_decode_roundtrip (s a : Z) :
  0 ≤ s ≤ 6 →
  (∃ p, pitch s a None None = Some p
        ∧ decode p = Some (Decoded s a None None))
  ∧ (∀ o d, d = None ∨ d = Some 1 →
       ∃ p, pitch s a (Some o) d = Some p
            ∧ decode p = Some (Decoded s a (Some o) d))
  ∧ (∀ f, reencode [f] = Some [f])
  ∧ (∀ f o, reencode [f; o] = Some [f; o])
  ∧ (∀ f o, reencode [f; o; 1] = Some [f; o; 1])
  ∧ (∀ o, ∃ p, pitch s a (Some o) (Some (-1)) = Some p
       ∧ decode p
         = Some (Decoded (complement_step s)
                   (if perfect_step s then - a else - a - 1)
                   (Some (if bool_decide (s = 0) then - o else - o - 1))
                   (Some (-1)))
       ∧ (decode p = Some (Decoded s a (Some o) (Some (-1)))
          ↔ s = 0 ∧ a = 0 ∧ o = 0))
  ∧ (∀ f o, reencode [f; o; -1] = Some [- f; - o; -1]
            ∧ (reencode [f; o; -1] = Some [f; o; -1] ↔ f = 0 ∧ o = 0)).
Proof.
  intros H. split; [by apply decode_pitch_class|].
  split; [intros o d Hd; by apply decode_pitch_ascending|].
  split; [apply reencode_pitch_class|].
  split; [apply reencode_note|].
  split; [apply reencode_ascending|].
  split.
  - intros o.
    destruct (decode_descending_coords s a o H) as (x & y & Hp & Hd).
    exists [x; y; -1]. split; [done|]. split; [done|].
    rewrite Hd. split.
    + intros Heq. injection Heq as Hs Ha Ho.
      unfold complement_step in Hs. unfold perfect_step in Ha.
      repeat case_bool_decide; lia.
    + intros (-> & -> & ->). reflexivity.
  - intros f o. rewrite reencode_descending. split; [done|]. split.
    + intros Heq. injection Heq as Hf Ho. lia.
    + intros [-> ->]. reflexivity.
Qed.

Lemma encode_decode_roundtrip_witness :
  0 ≤ 4 ≤ 6
  ∧ (∃ p, pitch 4 1 (Some 3) None = Some p
          ∧ decode p = Some (Decoded 4 1 (Some 3) None))
  ∧ (∃ p, pitch 4 1 (Some 3) (Some (-1)) = Some p
          ∧ decode p = Some (Decoded 3 (-1) (Some (-4)) (Some (-1)))).
Proof.
  split; [lia|].
  destruct (encode_decode_roundtrip 4 1 ltac:(lia))
    as (_ & Hn & _ & _ & _ & Hdesc & _).
  split; [apply (Hn 3 None); by left|].
  destruct (Hdesc 3) as (p & Hp & Hd & _). by exists p.
Defined.

(** C1 fails on descending intervals: [pitch (1, 0, 0, -1)] is [[-2, 1, -1]],
    which decodes to step 6, alt -1, oct -1, and encoding that again gives
    [[2, -1, -1]]. *)
Lemma descending_interval_not_inverted :
  pitch 1 0 (Some 0) (Some (-1)) = Some [-2; 1; -1]
  ∧ decode [-2; 1; -1] = Some (Decoded 6 (-1) (Some (-1)) (Some (-1)))
  ∧ decode [-2; 1; -1] ≠ Some (Decoded 1 0 (Some 0) (Some (-1)))
  ∧ reencode [-2; 1; -1] = Some [2; -1; -1]
  ∧ reencode [-2; 1; -1] ≠ Some [-2; 1; -1].
Proof. repeat split; (reflexivity || discriminate). Qed.

(** X7: what [decode] returns for a descending interval: the direction, and
    the step, alteration and octave of the inverted interval, not those
    given to [pitch]. *)
Theorem decode_descending (s a o : Z) :
  0 ≤ s ≤ 6 →
  ∃ p, pitch s a (Some o) (Some (-1)) = Some p
       ∧ decode p
         = Some (Decoded (complement_step s)
                   (if perfect_step s then - a else - a - 1)
                   (Some (if bool_decide (s = 0) then - o else - o - 1))
                   (Some (-1))).
Proof.
  intros Hs.
  destruct (decode_descending_coords s a o Hs) as (x & y & Hp & Hd).
  by exists [x; y; -1].
Qed.

Lemma decode_descending_witness :
  0 ≤ 1 ≤ 6
  ∧ ∃ p, pitch 1 0 (Some 0) (Some (-1)) = Some p
         ∧ decode p = Some (Decoded 6 (-1) (Some (-1)) (Some (-1))).
Proof.
  split; [lia|]. apply (decode_descending 1 0 0). lia.
Defined.

Section interval_text.
Context `{!Grammars}.

(** The interval numbers that [interval-notation] calls perfect. *)
Hypothesis ivl_type_perfect : ∀ n,
  1 ≤ n ≤ 7 → ivl_type n = "P" ↔ perfect_step (n - 1) = true.

Lemma isPerf_complement (s a : Z) (o d : option Z) :
  0 ≤ s ≤ 6 →
  isPerf (Decoded (complement_step s) a o d) = perfect_step s.
Proof.
  intros Hs. unfold isPerf. simpl.
  assert (1 ≤ complement_step s + 1 ≤ 7) as Hn
    by (unfold complement_step; case_bool_decide; lia).
  pose proof (ivl_type_perfect _ Hn) as Hiff.
  replace (complement_step s + 1 - 1) with (complement_step s) in Hiff by lia.
  assert (perfect_step (complement_step s) = perfect_step s) as Hc
    by (step_split Hs; reflexivity).
  rewrite Hc in Hiff.
  destruct (perfect_step s).
  - apply bool_decide_eq_true_2. by apply Hiff.
  - apply bool_decide_eq_false_2. intros Hp. apply Hiff in Hp. done.
Qed.

(** X8: the text of an encoded interval shows the number and the alteration
    that were given to [pitch], ascending and descending alike. *)
Theorem strIvl_pitch (s a o d : Z) :
  0 ≤ s ≤ 6 → d = 1 ∨ d = -1 →
  ∃ p, pitch s a (Some o) (Some d) = Some p
       ∧ strIvl p
         = Ok (VStr (pretty (d * (s + 1 + 7 * o))
                     +:+ ivl_altToQ (s + 1 + 7 * o) a)).
Proof.
  intros Hs [-> | ->].
  - destruct (decode_pitch_ascending s a o (Some 1) Hs) as (p & Hp & Hd);
      [by right|].
    exists p. split; [done|].
    destruct (pitch_coords s a Hs) as (f & fo & _ & _ & _ & _ & _ & Hi).
    rewrite Hi in Hp. simpl in Hp. simplify_eq.
    unfold strIvl. rewrite Hd. reflexivity.
  - destruct (decode_descending_coords s a o Hs) as (x & y & Hp & Hd).
    exists [x; y; -1]. split; [done|].
    unfold strIvl. rewrite Hd.
    change (isInterval (VArr [x; y; -1])) with true. simpl.
    unfold calcNum, calcAlt. rewrite isPerf_complement by done.
    unfold isAsc. simpl.
    assert (8 - complement_step s
            - 7 * ((if bool_decide (s = 0) then - o else - o - 1) + 1)
            = s + 1 + 7 * o) as ->
      by (unfold complement_step; case_bool_decide; lia).
    assert ((if perfect_step s
             then - (if perfect_step s then - a else - a - 1)
             else - ((if perfect_step s then - a else - a - 1) + 1)) = a)
      as -> by (destruct (perfect_step s); lia).
    done.
Qed.

End interval_text.

Lemma sample_ivl_type_perfect (n : Z) :
  1 ≤ n ≤ 7 →
  @ivl_type sample_grammars n = "P" ↔ perfect_step (n - 1) = true.
Proof.
  intros Hn.
  assert (n = 1 ∨ n = 2 ∨ n = 3 ∨ n = 4 ∨ n = 5 ∨ n = 6 ∨ n = 7)
    as [->|[->|[->|[->|[->|[->| ->]]]]]] by lia; by vm_compute.
Qed.

Lemma strIvl_pitch_witness :
  0 ≤ 1 ≤ 6 ∧ (-1 = 1 ∨ -1 = -1)
  ∧ ∃ p, pitch 1 0 (Some 0) (Some (-1)) = Some p
         ∧ @strIvl sample_grammars p = Ok (VStr "-2M").
Proof.
  split; [lia|]. split; [by right|].
  apply (@strIvl_pitch sample_grammars sample_ivl_type_perfect 1 0 0 (-1));
    [lia | by right].
Defined.

(** ** Names of notes *)







(** ** The cache as a memo table *)

Section cache_facts.
Context `{!Grammars}.

(** X11: reading the same value again returns the same result and leaves the
    cache as the first reading left it; a reading changes no entry but the
    one of the text that was read. *)
Theorem parsePitch_memo (v : value) (cache : gmap string value) :
  parsePitch v (parsePitch v cache).2 = parsePitch v cache
  ∧ ∀ t, v ≠ VStr t → (parsePitch v cache).2 !! t = cache !! t.
Proof.
  destruct v as [| | | |s|]; try done.
  pose proof (parsePitch_str s cache) as Hp.
  destruct (truthy (cache_lookup cache s)) eqn:Hhit; rewrite Hp; simpl.
  - split; [by rewrite Hp|done].
  - split.
    + rewrite parsePitch_str, cache_lookup_insert, decide_True by done.
      rewrite insert_insert_eq. by destruct (truthy (fresh_parse s)).
    + intros t Ht. rewrite lookup_insert_ne; [done|congruence].
Qed.

(** X12: parsing never throws: a text that neither grammar reads gives [null],
    and so does every value that is not a text. *)
Theorem parsePitch_null (v : value) (cache : gmap string value) :
  ((∀ s, v ≠ VStr s) → parsePitch v cache = (VNull, cache))
  ∧ (∀ s, v = VStr s → note_parse s = None → ivl_parse s = None →
          truthy (cache_lookup cache s) = false →
          (parsePitch v cache).1 = VNull).
Proof.
  split; [apply parsePitch_other|].
  intros s -> Hn Hi Hc. rewrite parsePitch_str, Hc. simpl.
  unfold fresh_parse, note_of, ivl_of. by rewrite Hn, Hi.
Qed.

End cache_facts.

Lemma parsePitch_null_witness :
  @parsePitch sample_grammars (VNum (num_of_Z 5)) ∅ = (VNull, ∅)
  ∧ (@parsePitch sample_grammars (VStr "H9") ∅).1 = VNull.
Proof.
  destruct (@parsePitch_null sample_grammars (VNum (num_of_Z 5)) ∅)
    as [Hother _].
  destruct (@parsePitch_null sample_grammars (VStr "H9") ∅) as [_ Htext].
  split; [by apply Hother|].
  by apply (Htext "H9").
Defined.


Lemma transpose_unparsed_subject_throws_witness :
  isInterval (@expectPitch sample_grammars (VStr "M3") ∅).1 = true
  ∧ (@expectPitch sample_grammars (VStr "H9") ∅).1 = VNull
  ∧ (@transpose sample_grammars (VStr "M3") (VStr "H9") ∅).1 = Throw TypeError
  ∧ (@transpose sample_grammars (VStr "H9") (VStr "M3") ∅).1 = Throw TypeError.
Proof.
  split; [by vm_compute|]. split; [by vm_compute|].
  apply (@transpose_unparsed_subject_throws sample_grammars
           (VStr "M3") (VStr "H9") ∅); by vm_compute.
Defined.

(** ** Heights for sorting *)

(** X15: [null] ranks below everything; a note ranks by its height; a pitch
    class ranks by its semitone within the octave, ten octaves down.  The
    ascending comparator is the difference of the ranks and the descending
    one its opposite. *)
Theorem objHeight_ranks (f o g q : Z) (rest : list Z) :
  objHeight VNull = Inf true
  ∧ objHeight (VArr [f]) = num_of_Z ((7 * f) `mod` 12 - 120)
  ∧ objHeight (VArr (f :: o :: rest)) = num_of_Z (7 * f + 12 * o)
  ∧ ascComp (VArr [f; o]) (VArr [g; q])
    = num_of_Z (7 * f + 12 * o - (7 * g + 12 * q))
  ∧ descComp (VArr [f; o]) (VArr [g; q])
    = num_of_Z (7 * g + 12 * q - (7 * f + 12 * o))
  ∧ ascComp VNull (VArr (f :: rest)) = Inf true
  ∧ ascComp (VArr (f :: rest)) VNull = Inf false
  ∧ ascComp VNull VNull = NaN.
Proof.
  split; [done|]. split.
  { unfold objHeight. simpl. f_equal.
    Z.to_euclidean_division_equations; lia. }
  split.
  { unfold objHeight. simpl. f_equal. lia. }
  split.
  { unfold ascComp, objHeight, num_sub, num_of_Z. simpl.
    rewrite <- Z2Qc_inj_sub. do 2 f_equal. lia. }
  split.
  { unfold descComp, ascComp, objHeight, num_sub, num_neg, num_of_Z. simpl.
    rewrite <- Z2Qc_inj_sub, <- Z2Qc_inj_opp. do 2 f_equal. lia. }
  split; [by destruct rest|]. split; [by destruct rest|]. done.
Qed.

(** ** Decorated pitch properties *)

Section decorated_facts.
Context `{!Grammars}.

Lemma buildFnDec_result expect to fn (v : value) (cache : gmap string value) :
  (buildFnDec expect to fn v cache).1
  = match fn (expect v cache).1 with
    | Ok r => to r
    | Throw e => Throw e
    end.
Proof. unfold buildFnDec. by destruct (expect v cache). Qed.

(** X16: the decorated properties do not return [null] for an operand that
    cannot be read: they index the [null] that the parser returned. *)
Theorem decorated_throw_on_null (v : value) (cache : gmap string value) :
  ((expectNote v cache).1 = VNull →
   (letter v cache).1 = Throw TypeError
   ∧ (accidentals v cache).1 = Throw TypeError)
  ∧ ((expectPitch v cache).1 = VNull →
     (octave v cache).1 = Throw TypeError)
  ∧ ((expectIvl v cache).1 = VNull →
     (simpleNum v cache).1 = Throw TypeError
     ∧ (number_of v cache).1 = Throw TypeError
     ∧ (semitones v cache).1 = Throw TypeError).
Proof.
  unfold letter, accidentals, octave, simpleNum, number_of, semitones,
    noteFn, pitchFn, ivlFn.
  rewrite !buildFnDec_result.
  split; [by intros ->|]. split; by intros ->.
Qed.


(** X18: the semitones of an encoded interval: those of its number, plus the
    alteration, plus twelve for every octave, negated when descending. *)
Theorem semitones_pitch (s a o d : Z) (cache : gmap string value) :
  0 ≤ s ≤ 6 → d = 1 ∨ d = -1 →
  ∃ p sm, pitch s a (Some o) (Some d) = Some p
          ∧ js_index step_semitones s = Some sm
          ∧ semitones (VArr p) cache
            = (Ok (VNum (num_of_Z (d * (sm + a + 12 * o)))), cache).
Proof.
  intros Hs Hd.
  destruct (pitch_coords s a Hs) as (f & fo & _ & _ & Hsm & _ & _ & Hi).
  eexists _, _. split; [apply Hi|]. split; [exact Hsm|].
  unfold semitones, ivlFn, buildFnDec, expectIvl, on_array, height. simpl.
  do 4 f_equal. destruct Hd as [-> | ->]; simpl; lia.
Qed.

(** X19: the simple number of every tuple with a first component lies between
    1 and 7. *)
Theorem simpleNum_range (f : Z) (rest : list Z) (cache : gmap string value) :
  ∃ n, simpleNum (VArr (f :: rest)) cache = (Ok (VNum (num_of_Z n)), cache)
       ∧ 1 ≤ n ≤ 7.
Proof.
  destruct (decode_total f rest) as (d & Hd & Hr).
  exists (step d + 1). split; [|lia].
  unfold simpleNum, ivlFn, buildFnDec, expectIvl, on_array. simpl.
  by rewrite Hd.
Qed.

End decorated_facts.

Lemma decorated_throw_on_null_witness :
  (@expectNote sample_grammars (VStr "H9") ∅).1 = VNull
  ∧ (@letter sample_grammars (VStr "H9") ∅).1 = Throw TypeError
  ∧ (@octave sample_grammars (VStr "H9") ∅).1 = Throw TypeError
  ∧ (@semitones sample_grammars (VStr "C4") ∅).1 = Throw TypeError.
Proof.
  destruct (@decorated_throw_on_null sample_grammars (VStr "H9") ∅)
    as (Hnote & Hpitch & _).
  destruct (@decorated_throw_on_null sample_grammars (VStr "C4") ∅)
    as (_ & _ & Hivl).
  split; [by vm_compute|].
  split; [apply Hnote; by vm_compute|].
  split; [apply Hpitch; by vm_compute|].
  apply Hivl. by vm_compute.
Defined.


Lemma semitones_pitch_witness :
  0 ≤ 4 ≤ 6 ∧ (1 = 1 ∨ 1 = -1)
  ∧ ∃ p sm, pitch 4 0 (Some 0) (Some 1) = Some p
            ∧ js_index step_semitones 4 = Some sm
            ∧ @semitones sample_grammars (VArr p) ∅
              = (Ok (VNum (num_of_Z (1 * (sm + 0 + 12 * 0)))), ∅).
Proof.
  split; [lia|]. split; [by left|].
  apply (@semitones_pitch sample_grammars 4 0 0 1 ∅); [lia|by left].
Defined.

(** ** More on forcing a direction *)

Section direction_more.
Import Direction.
Context {item : Type} `{!NoteLibrary item}.

Lemma direction_loop_length comp off (last : item) (rest : list item) :
  length (direction_loop comp off last rest) = length rest.
Proof.
  revert last. induction rest as [|x rest IH]; intros last; [done|].
  simpl. by rewrite IH.
Qed.

(** X20: a result has as many entries as the list, and the same first entry. *)
Theorem direction_length (items result : list item) (dir : value) :
  direction items dir = Ok result →
  length result = length items ∧ head result = head items.
Proof.
  unfold direction.
  destruct (bool_decide _ && bool_decide _); [done|].
  intros [= <-]. destruct items as [|x rest]; [done|].
  simpl. by rewrite direction_loop_length.
Qed.

Lemma direction_loop_up_fixed (rest : list item) (last : item) :
  heights_related Z.le last rest → direction_loop GT 1 last rest = rest.
Proof.
  revert last. induction rest as [|x rest IH]; intros last; [done|].
  intros [Hle Hrest]. simpl. unfold GT, height_of in *.
  rewrite bool_decide_eq_false_2 by lia. by rewrite IH.
Qed.

Lemma direction_loop_down_fixed (rest : list item) (last : item) :
  heights_related Z.ge last rest → direction_loop LT 0 last rest = rest.
Proof.
  revert last. induction rest as [|x rest IH]; intros last; [done|].
  intros [Hge Hrest]. simpl. unfold LT, height_of in *.
  rewrite bool_decide_eq_false_2 by lia. by rewrite IH.
Qed.

(** X21: a list whose heights never fall is returned as it is by the ascending
    direction, and a list whose heights never rise by the descending one. *)
Theorem direction_fixed_point (x : item) (rest : list item) :
  (heights_related Z.le x rest →
   direction (x :: rest) (VNum (num_of_Z 1)) = Ok (x :: rest))
  ∧ (heights_related Z.ge x rest →
     direction (x :: rest) (VNum (num_of_Z (-1))) = Ok (x :: rest)).
Proof.
  split; intros Hrel.
  - change (direction (x :: rest) (VNum (num_of_Z 1)))
      with (Ok (x :: direction_loop GT 1 x rest)).
    by rewrite direction_loop_up_fixed.
  - change (direction (x :: rest) (VNum (num_of_Z (-1))))
      with (Ok (x :: direction_loop LT 0 x rest)).
    by rewrite direction_loop_down_fixed.
Qed.

Hypothesis octave_shift : ∀ (x : item) (o : Z),
  midi (note (name (note_oct (note x) o)))
  = midi (note x) + 12 * (o - oct (note x)).

Lemma direction_loop_up_related (rest : list item) (last : item) :
  heights_related Z.le last (direction_loop GT 1 last rest).
Proof.
  revert last. induction rest as [|x rest IH]; intros last; [done|].
  simpl. split; [|apply IH].
  unfold height_of, GT. case_bool_decide as Hcmp; [|lia].
  rewrite octave_shift.
  pose proof (Z.div_mod (midi (note last) - midi (note x)) 12 ltac:(lia)).
  pose proof (Z.mod_pos_bound (midi (note last) - midi (note x)) 12
                ltac:(lia)).
  lia.
Qed.

Lemma direction_loop_down_related (rest : list item) (last : item) :
  heights_related Z.ge last (direction_loop LT 0 last rest).
Proof.
  revert last. induction rest as [|x rest IH]; intros last; [done|].
  simpl. split; [|apply IH].
  unfold height_of, LT. case_bool_decide as Hcmp; [|lia].
  rewrite octave_shift.
  pose proof (Z.div_mod (midi (note last) - midi (note x)) 12 ltac:(lia)).
  pose proof (Z.mod_pos_bound (midi (note last) - midi (note x)) 12
                ltac:(lia)).
  lia.
Qed.

(** X22: forcing a direction twice changes nothing more: the result of a call is
    returned as it is by a second call with the same direction. *)
Theorem direction_idempotent (items result : list item) :
  (direction items (VNum (num_of_Z 1)) = Ok result →
   direction result (VNum (num_of_Z 1)) = Ok result)
  ∧ (direction items (VNum (num_of_Z (-1))) = Ok result →
     direction result (VNum (num_of_Z (-1))) = Ok result).
Proof.
  destruct items as [|x rest].
  - split; by intros [= <-].
  - split.
    + change (direction (x :: rest) (VNum (num_of_Z 1)))
        with (Ok (x :: direction_loop GT 1 x rest)).
      intros [= <-].
      change (direction (x :: direction_loop GT 1 x rest) (VNum (num_of_Z 1)))
        with (Ok (x :: direction_loop GT 1 x (direction_loop GT 1 x rest))).
      rewrite direction_loop_up_fixed; [done|].
      apply direction_loop_up_related.
    + change (direction (x :: rest) (VNum (num_of_Z (-1))))
        with (Ok (x :: direction_loop LT 0 x rest)).
      intros [= <-].
      change (direction (x :: direction_loop LT 0 x rest)
                (VNum (num_of_Z (-1))))
        with (Ok (x :: direction_loop LT 0 x (direction_loop LT 0 x rest))).
      rewrite direction_loop_down_fixed; [done|].
      apply direction_loop_down_related.
Qed.

End direction_more.

Lemma direction_length_witness :
  @Direction.direction _ Direction.tones [(0, 4); (7, 3); (4, 5)]
    (VNum (num_of_Z (-1)))
  = Ok [(0, 4); (7, 3); (4, 3)]
  ∧ length [(0, 4); (7, 3); (4, 3)] = length [(0, 4); (7, 3); (4, 5)]
  ∧ head [(0, 4); (7, 3); (4, 3)] = head [(0, 4); (7, 3); (4, 5)].
Proof.
  split; [reflexivity|].
  apply (@direction_length _ Direction.tones
           [(0, 4); (7, 3); (4, 5)] [(0, 4); (7, 3); (4, 3)]
           (VNum (num_of_Z (-1)))).
  reflexivity.
Defined.

Lemma direction_fixed_point_witness :
  @Direction.heights_related _ Direction.tones Z.le (0, 4) [(0, 4); (7, 4)]
  ∧ @Direction.direction _ Direction.tones [(0, 4); (0, 4); (7, 4)]
      (VNum (num_of_Z 1))
    = Ok [(0, 4); (0, 4); (7, 4)].
Proof.
  assert (@Direction.heights_related _ Direction.tones Z.le
            (0, 4) [(0, 4); (7, 4)]) as Hrel.
  { simpl. unfold Direction.height_of. simpl. lia. }
  split; [exact Hrel|].
  by apply (@direction_fixed_point _ Direction.tones (0, 4) [(0, 4); (7, 4)]).
Defined.

Lemma direction_idempotent_witness :
  @Direction.direction _ Direction.tones [(0, 4); (7, 3); (4, 5)]
    (VNum (num_of_Z 1))
  = Ok [(0, 4); (7, 4); (4, 5)]
  ∧ @Direction.direction _ Direction.tones [(0, 4); (7, 4); (4, 5)]
      (VNum (num_of_Z 1))
    = Ok [(0, 4); (7, 4); (4, 5)].
Proof.
  split; [reflexivity|].
  apply (proj1 (@direction_idempotent _ Direction.tones tones_octave_shift
                  [(0, 4); (7, 3); (4, 5)] [(0, 4); (7, 4); (4, 5)])).
  reflexivity.
Defined.

Lemma parsePitch_memo_witness :
  @parsePitch sample_grammars (VStr "M3")
    (@parsePitch sample_grammars (VStr "M3") ∅).2
  = @parsePitch sample_grammars (VStr "M3") ∅
  ∧ VStr "M3" ≠ VStr "C4"
  ∧ (@parsePitch sample_grammars (VStr "M3") ∅).2 !! "C4"
    = (∅ : gmap string value) !! "C4".
Proof.
  destruct (@parsePitch_memo sample_grammars (VStr "M3") ∅) as [Hagain Hkey].
  split; [exact Hagain|]. split; [done|]. by apply Hkey.
Defined.
